(** * turf-line-intersect: a shallow embedding of [lineIntersect]

    The embedded program is [packages/turf-line-intersect/index.js]:
    [lineIntersect], [intersects], [createPolygonsFromTree] and [lineTree].

    - A JavaScript number is an IEEE 754 binary64 value: Rocq's primitive
      [float], whose operations are the ones the JavaScript engine runs.
    - Feature objects the caller passes in live in a store ([heap]) and are
      named by their location, because debug mode writes through their
      [properties] member and hands the very same objects back. That
      member can be null, and two features can hold the same properties
      object: such an object lives in the store too.
    - Objects the call creates itself (points, polygons, two-point line
      segments, the features [flatten] returns) are reachable from nowhere
      else and are never written to after creation: they are plain values.
    - [throw new Error(..)] is the [Throw] result of a small error monad. *)

From Stdlib Require Import Floats ZArith QArith Lqa Lia List String.
From stdpp Require Import gmap strings list.

(** ** Data model *)

(** A GeoJSON position [[x, y]]; the code only ever reads indices 0 and 1. *)
Record Position : Type := position { c0 : float; c1 : float }.

Inductive Geometry : Type :=
| Point (coordinates : Position)
| MultiPoint (coordinates : list Position)
| LineString (coordinates : list Position)
| MultiLineString (coordinates : list (list Position))
| Polygon (coordinates : list (list Position))
| MultiPolygon (coordinates : list (list (list Position))).

(** The [type] member of a geometry object. *)
Definition geometry_type (g : Geometry) : string :=
  match g with
  | Point _ => "Point"
  | MultiPoint _ => "MultiPoint"
  | LineString _ => "LineString"
  | MultiLineString _ => "MultiLineString"
  | Polygon _ => "Polygon"
  | MultiPolygon _ => "MultiPolygon"
  end.

Inductive JSValue : Type :=
| JSString (s : string)
| JSNumber (n : float).

Definition loc : Type := positive.

(** The [properties] member of a Feature object: an object no other
    feature holds ([Own], as the helpers of [@turf/helpers] build it), an
    object of the store that other features may hold as well ([Shared]),
    or [null], which also stands for a member that is not there. *)
Inductive Properties : Type :=
| Own (members : gmap string JSValue)
| Shared (p : loc)
| Null.

(** A Feature object: [{type: 'Feature', geometry, properties}]. Its
    geometry is an object: a feature whose geometry is null is not of this
    type. *)
Record Feature : Type := feature {
  geometry : Geometry;
  properties : Properties
}.

(** A Feature or a FeatureCollection, over the way its features are held:
    by location for the caller's objects, by value for fresh ones. The
    [features] member of a FeatureCollection is an array, or, in
    [AFeatureCollectionOf], a GeoJSON object put there in its place. *)
Inductive GeoJSON (A : Type) : Type :=
| AFeature (f : A)
| AFeatureCollection (features : list A)
| AFeatureCollectionOf (features : GeoJSON A).
Arguments AFeature {A} f.
Arguments AFeatureCollection {A} features.
Arguments AFeatureCollectionOf {A} features.

(** A [Feature<LineString>] as [helpers.lineString] makes it (no
    properties, owned by the call), given by its [geometry.coordinates]. *)
Definition LineStringFeature : Type := list Position.

(** The store: the caller's feature objects, and the properties objects
    they share. *)
Record heap : Type := {
  features : gmap loc Feature;
  shared : gmap loc (gmap string JSValue)
}.

#[export] Instance heap_lookup : Lookup loc Feature heap :=
  fun l h => features h !! l.
#[export] Instance heap_empty : Empty heap :=
  {| features := ∅; shared := ∅ |}.
#[export] Instance heap_insert : Insert loc Feature heap :=
  fun l f h => {| features := <[l := f]> (features h); shared := shared h |}.
#[export] Instance heap_singleton : SingletonM loc Feature heap :=
  fun l f => <[l := f]> ∅.

(** What the [results] array holds: an object made by this call, or one of
    the caller's feature objects itself. *)
Inductive Item : Type :=
| Fresh (f : Feature)
| Input (l : loc).

(** ** Exceptions *)

Inductive Error : Type :=
| ErrorMsg (message : string)
| TypeError.

Definition InvalidGeometryType : Error :=
  ErrorMsg "<lineTree> geometry must be a LineString".
Definition InvalidSegmentLength1 : Error :=
  ErrorMsg "<intersects> line1 must only contain 2 coordinates".
Definition InvalidSegmentLength2 : Error :=
  ErrorMsg "<intersects> line2 must only contain 2 coordinates".

Definition isInvalidSegmentLength (e : Error) : Prop :=
  e = InvalidSegmentLength1 \/ e = InvalidSegmentLength2.

(** The two exceptions of [helpers.polygon]. *)
Definition InvalidRingLength : Error :=
  ErrorMsg "Each LinearRing of a Polygon must have 4 or more Positions.".
Definition InvalidRingClosure : Error :=
  ErrorMsg "First and last Position are not equivalent.".

Inductive Result (A : Type) : Type :=
| Ok (a : A)
| Throw (e : Error).
Arguments Ok {A} a.
Arguments Throw {A} e.

#[export] Instance Result_ret : MRet Result := fun A a => Ok a.
#[export] Instance Result_bind : MBind Result := fun A B k c =>
  match c with
  | Ok a => k a
  | Throw e => Throw e
  end.

(** Code that also writes to the caller's objects: the store is threaded
    through, and survives an exception as it was when the exception rose. *)
Definition JS (A : Type) : Type := heap -> Result A * heap.

#[export] Instance JS_ret : MRet JS := fun A a h => (Ok a, h).
#[export] Instance JS_bind : MBind JS := fun A B k c h =>
  match c h with
  | (Ok a, h') => k a h'
  | (Throw e, h') => (Throw e, h')
  end.

(** Code that only reads the store, run as a step of code that writes. *)
Definition reading {A : Type} (c : heap -> Result A) : JS A :=
  fun h => (c h, h).

(** [array.forEach(callback)] where the callback pushes onto an array of the
    enclosing function ([s]) and may throw, which ends the loop. *)
Fixpoint forEach {M : Type -> Type} `{!MBind M, !MRet M} {A T : Type}
    (callback : A -> T -> M T) (array : list A) (s : T) : M T :=
  match array with
  | [] => mret s
  | a :: rest => s' ← callback a s; forEach callback rest s'
  end.

(** Reading a feature through a reference; a slot that holds no object
    makes the member access throw a [TypeError]. *)
Definition deref (h : heap) (l : loc) : Result Feature :=
  match h !! l with
  | Some f => Ok f
  | None => Throw TypeError
  end.

(** [feature.properties[key] = value] on the object at [l]: the write goes
    to the properties object the feature holds, and throws a [TypeError]
    when there is none. *)
Definition setProperty (l : loc) (key : string) (value : JSValue) : JS unit :=
  fun h =>
    match h !! l with
    | Some f =>
        match properties f with
        | Own members =>
            (Ok tt,
             {| features := <[l := {| geometry := geometry f;
                                      properties := Own (<[key := value]> members) |}]>
                              (features h);
                shared := shared h |})
        | Shared p =>
            match shared h !! p with
            | Some members =>
                (Ok tt,
                 {| features := features h;
                    shared := <[p := <[key := value]> members]> (shared h) |})
            | None => (Throw TypeError, h)
            end
        | Null => (Throw TypeError, h)
        end
    | None => (Throw TypeError, h)
    end.

(** JavaScript's [a !== b] on numbers: true of a NaN against itself. *)
Definition strict_neq (a b : float) : bool := negb (PrimFloat.eqb a b).

(** ** Collaborators *)

(** Modelled from the spec: [helpers.lineString], [helpers.point],
    [helpers.polygon] and [helpers.featureCollection] of [@turf/helpers]
    are not among the sources. Section 6: "given raw coordinates, produce a
    well-formed geometry Feature/Collection wrapper". [helpers.polygon]
    takes well-formed rings only: it throws on a ring of fewer than four
    positions and on a ring whose last position differs ([!==]) from its
    first in a coordinate. [helpers.featureCollection] stores what it is
    given under [features]: [featureCollection] is the helper on an array,
    [featureCollection_of_object] the helper on a GeoJSON object. *)
Definition lineString (coordinates : list Position) : LineStringFeature :=
  coordinates.

Definition point (coordinates : Position) : Feature :=
  {| geometry := Point coordinates; properties := Own ∅ |}.

Definition ring_check (ring : list Position) : Result unit :=
  if (length ring <? 4)%nat then Throw InvalidRingLength
  else
    match head ring, last ring with
    | Some first, Some final =>
        if strict_neq (c0 final) (c0 first) || strict_neq (c1 final) (c1 first)
        then Throw InvalidRingClosure
        else Ok tt
    | _, _ => Ok tt
    end.

Definition polygon (coordinates : list (list Position)) : Result Feature :=
  forEach (fun ring _ => ring_check ring) coordinates tt;;
  Ok {| geometry := Polygon coordinates; properties := Own ∅ |}.

Definition featureCollection {A : Type} (features : list A) : GeoJSON A :=
  AFeatureCollection features.

Definition featureCollection_of_object {A : Type} (features : GeoJSON A)
  : GeoJSON A :=
  AFeatureCollectionOf features.

(** Modelled from the spec: [featureEach] of [./turf-meta] is not among the
    sources. Section 6: "given a Feature or Collection, produce each
    contained Feature in original order". It runs over the indices below
    [layer.features.length]: there are none when [features] is not an
    array. *)
Definition features_of {A : Type} (layer : GeoJSON A) : list A :=
  match layer with
  | AFeature f => [f]
  | AFeatureCollection fs => fs
  | AFeatureCollectionOf _ => []
  end.

Definition featureEach {M : Type -> Type} `{!MBind M, !MRet M} {A T : Type}
    (layer : GeoJSON A) (callback : A -> T -> M T) (s : T) : M T :=
  forEach callback (features_of layer) s.

(** Modelled from the spec: [coordReduce] of [./turf-meta] is not among the
    sources. Section 6: "given a LineString Feature, produce each
    consecutive coordinate pair in order along with its index". No initial
    value is passed, so the first coordinate seeds [previousValue] and the
    callback runs from index 1 on; the callback's return value is the next
    [previousValue]. [coords_of] lists the positions [coordEach] visits. *)
Definition coords_of (g : Geometry) : list Position :=
  match g with
  | Point c => [c]
  | MultiPoint cs | LineString cs => cs
  | MultiLineString css | Polygon css => concat css
  | MultiPolygon csss => concat (concat csss)
  end.

Fixpoint coordReduce_from {T : Type}
    (callback : Position -> Position -> nat -> T -> Position * T)
    (previousValue : Position) (currentIndex : nat)
    (coords : list Position) (s : T) : Position * T :=
  match coords with
  | [] => (previousValue, s)
  | currentCoords :: rest =>
      let '(previousValue', s') :=
        callback previousValue currentCoords currentIndex s in
      coordReduce_from callback previousValue' (S currentIndex) rest s'
  end.

Definition coordReduce {T : Type} (layer : Feature)
    (callback : Position -> Position -> nat -> T -> Position * T) (s : T) : T :=
  match coords_of (geometry layer) with
  | [] => s
  | first :: rest => snd (coordReduce_from callback first 1 rest s)
  end.

(** Modelled from the spec: [flatten] of [@turf/flatten] is not among the
    sources. Section 6: "given a MultiLineString Feature, produce the
    equivalent Collection of single-part LineString Features". The parts
    carry the properties of the feature. The code calls it on
    MultiLineString features only. *)
Definition flatten (multiFeature : Feature) : GeoJSON Feature :=
  match geometry multiFeature with
  | MultiLineString css =>
      featureCollection
        (map (fun cs => {| geometry := LineString cs;
                           properties := properties multiFeature |}) css)
  | _ => featureCollection [multiFeature]
  end.

(** Modelled from the spec: [bboxPolygon] of [@turf/bbox-polygon] is not
    among the sources. Section 6: "given a BoundingBox, produce a
    four-cornered Polygon Feature"; the ring goes through
    [helpers.polygon]. *)
Definition bboxPolygon (west south east north : float) : Result Feature :=
  let lowLeft := position west south in
  let topLeft := position west north in
  let topRight := position east north in
  let lowRight := position east south in
  polygon [[lowLeft; lowRight; topRight; topLeft; lowLeft]].

(** ** The spatial index *)

(** What [lineTree] loads into the index for each segment. *)
Record Entry : Type := entry {
  minX : float;
  minY : float;
  maxX : float;
  maxY : float;
  index : nat;
  lineSegment : LineStringFeature
}.

Open Scope float_scope.

(** JavaScript's [a > b] and [a >= b] on numbers. *)
Definition gtb (a b : float) : bool := b <? a.
Definition geb (a b : float) : bool := b <=? a.
Infix ">?" := gtb (at level 70, no associativity) : float_scope.
Infix ">=?" := geb (at level 70, no associativity) : float_scope.

(** The box test of a query [q] against a stored entry [e] (section 4.2). *)
Definition overlap (q e : Entry) : bool :=
  (minX q <=? maxX e) && (maxX q >=? minX e) &&
  (minY q <=? maxY e) && (maxY q >=? minY e).

(** The invariant of a BoundingBox (section 3): [minX <= maxX] and
    [minY <= maxY]. *)
Definition BoundingBox (e : Entry) : Prop :=
  (minX e <=? maxX e) = true /\ (minY e <=? maxY e) = true.

(** Modelled from the spec: [rbush] is not among the sources. Section 4.2:
    an index, bulk-loaded once, supporting "(a) full enumeration of all
    entries in arbitrary order, and (b) for a query BoundingBox, return
    every stored entry whose BoundingBox overlaps it". What is enumerated
    or returned is a stored entry; that all of them are is granted for
    BoundingBoxes only. *)
Class RBush : Type := {
  tree : Type;
  load : list Entry -> tree;
  all : tree -> list Entry;
  search : tree -> Entry -> list Entry;
  all_stored : forall l e, e ∈ all (load l) -> e ∈ l;
  search_stored : forall l q e, e ∈ search (load l) q -> e ∈ l;
  all_load : forall l, Forall BoundingBox l -> all (load l) ≡ₚ l;
  search_load : forall l q,
    Forall BoundingBox l -> BoundingBox q ->
    search (load l) q ≡ₚ filter (fun e => overlap q e = true) l
}.

(** The index that keeps the entries in load order and scans them. *)
#[export, refine] Instance scan : RBush := {|
  tree := list Entry;
  load l := l;
  all t := t;
  search t q := filter (fun e => overlap q e = true) t
|}.
Proof.
  - done.
  - by intros l q e [_ ?]%list_elem_of_filter.
  - done.
  - done.
Defined.

(** ** The program *)

(** [intersects(line1, line2)]: the crossing point of two two-point lines,
    or [null] ([None]). *)
Definition intersects (line1 line2 : LineStringFeature) : Result (option Feature) :=
  if negb (length line1 =? 2)%nat then Throw InvalidSegmentLength1 else
  if negb (length line2 =? 2)%nat then Throw InvalidSegmentLength2 else
  match line1, line2 with
  | [p1; p2], [p3; p4] =>
      let x1 := c0 p1 in
      let y1 := c1 p1 in
      let x2 := c0 p2 in
      let y2 := c1 p2 in
      let x3 := c0 p3 in
      let y3 := c1 p3 in
      let x4 := c0 p4 in
      let y4 := c1 p4 in
      let denom := ((y4 - y3) * (x2 - x1)) - ((x4 - x3) * (y2 - y1)) in
      let numeA := ((x4 - x3) * (y1 - y3)) - ((y4 - y3) * (x1 - x3)) in
      let numeB := ((x2 - x1) * (y1 - y3)) - ((y2 - y1) * (x1 - x3)) in
      if denom =? 0 then
        if (numeA =? 0) && (numeB =? 0) then Ok None
        else Ok None
      else
        let uA := numeA / denom in
        let uB := numeB / denom in
        if (uA >=? 0) && (uA <=? 1) && (uB >=? 0) && (uB <=? 1) then
          let x := x1 + (uA * (x2 - x1)) in
          let y := y1 + (uA * (y2 - y1)) in
          Ok (Some (point (position x y)))
        else Ok None
  | _, _ => Throw TypeError (* not reached: both arrays have length 2 *)
  end.

Section Program.
Context {rbush : RBush}.
(** [createPolygonsFromTree(tree)] *)
Definition createPolygonsFromTree (t : tree) : Result (list Feature) :=
  mapM (fun item => bboxPolygon (minX item) (minY item) (maxX item) (maxY item))
       (all t).

(** The [load] array [lineTree] fills before it hands it to [tree.load]. *)
Definition lineTree_load (h : heap) (line : GeoJSON loc) : Result (list Entry) :=
  featureEach line (fun ref load =>
    multiFeature ← deref h ref;
    let multiFeature : GeoJSON Feature :=
      if String.eqb (geometry_type (geometry multiFeature)) "MultiLineString"
      then featureCollection_of_object (flatten multiFeature)
      else AFeature multiFeature in
    featureEach multiFeature (fun feature load =>
      if negb (String.eqb (geometry_type (geometry feature)) "LineString")
      then Throw InvalidGeometryType
      else
        Ok (coordReduce feature (fun previous current index load =>
          let lineSegment := lineString [previous; current] in
          let minX := if c0 previous <? c0 current then c0 previous else c0 current in
          let minY := if c1 previous <? c1 current then c1 previous else c1 current in
          let maxX := if c0 previous >? c0 current then c0 previous else c0 current in
          let maxY := if c1 previous >? c1 current then c1 previous else c1 current in
          (current,
           load ++ [{| minX := minX; minY := minY; maxX := maxX; maxY := maxY;
                       index := index; lineSegment := lineSegment |}])) load))
      load) [].

(** [lineTree(line)] *)
Definition lineTree (h : heap) (line : GeoJSON loc) : Result tree :=
  entries ← lineTree_load h line;
  Ok (load entries).

(** The two nested [forEach] loops of [lineIntersect] over the two trees. *)
Definition intersections (tree1 tree2 : tree) : Result (list Item) :=
  forEach (fun index1 results =>
    let lineSegment1 := lineSegment index1 in
    forEach (fun index2 results =>
      let lineSegment2 := lineSegment index2 in
      point ← intersects lineSegment1 lineSegment2;
      Ok (match point with
          | Some p => results ++ [Fresh p]
          | None => results
          end)) (search tree2 index1) results) (all tree1) [].

(** [lineIntersect(line1, line2, debug)] *)
Definition lineIntersect (line1 line2 : GeoJSON loc) (debug : bool)
  : JS (GeoJSON Item) :=
  tree1 ← reading (fun h => lineTree h line1);
  tree2 ← reading (fun h => lineTree h line2);
  results ← reading (fun _ => intersections tree1 tree2);
  if debug then
    polygons ← reading (fun _ => createPolygonsFromTree tree1);
    let results := results ++ map Fresh polygons in
    polygons ← reading (fun _ => createPolygonsFromTree tree2);
    let results := results ++ map Fresh polygons in
    results ← featureEach line1 (fun feature results =>
      setProperty feature "stroke" (JSString "#f00");;
      setProperty feature "stroke-width" (JSNumber 6);;
      mret (results ++ [Input feature])) results;
    results ← featureEach line2 (fun feature results =>
      setProperty feature "stroke" (JSString "#00f");;
      setProperty feature "stroke-width" (JSNumber 6);;
      mret (results ++ [Input feature])) results;
    mret (featureCollection results)
  else mret (featureCollection results).

End Program.

(** ** Specification-side definitions *)

(** The formulas of section 4.4, in binary64 arithmetic. *)
Definition denom (p1 p2 p3 p4 : Position) : float :=
  (c1 p4 - c1 p3) * (c0 p2 - c0 p1) - (c0 p4 - c0 p3) * (c1 p2 - c1 p1).
Definition numeA (p1 p2 p3 p4 : Position) : float :=
  (c0 p4 - c0 p3) * (c1 p1 - c1 p3) - (c1 p4 - c1 p3) * (c0 p1 - c0 p3).
Definition numeB (p1 p2 p3 p4 : Position) : float :=
  (c0 p2 - c0 p1) * (c1 p1 - c1 p3) - (c1 p2 - c1 p1) * (c0 p1 - c0 p3).
Definition uA (p1 p2 p3 p4 : Position) : float :=
  numeA p1 p2 p3 p4 / denom p1 p2 p3 p4.
Definition uB (p1 p2 p3 p4 : Position) : float :=
  numeB p1 p2 p3 p4 / denom p1 p2 p3 p4.

(** [u] lies in the closed interval [[0,1]]. *)
Definition in_unit_interval (u : float) : bool := (0 <=? u) && (u <=? 1).

(** The naive all-pairs double loop over the segments of the two inputs. *)
Definition naiveIntersect (h : heap) (line1 line2 : GeoJSON loc)
  : Result (list Item) :=
  segments1 ← lineTree_load h line1;
  segments2 ← lineTree_load h line2;
  forEach (fun s1 results =>
    forEach (fun s2 results =>
      point ← intersects (lineSegment s1) (lineSegment s2);
      Ok (match point with
          | Some p => results ++ [Fresh p]
          | None => results
          end)) segments2 results) segments1 [].

(** The entry the [coordReduce] callback of [lineTree] pushes for the
    segment from [previous] to [current]. *)
Definition segment_entry (previous current : Position) (index : nat) : Entry :=
  {| minX := if c0 previous <? c0 current then c0 previous else c0 current;
     minY := if c1 previous <? c1 current then c1 previous else c1 current;
     maxX := if c0 previous >? c0 current then c0 previous else c0 current;
     maxY := if c1 previous >? c1 current then c1 previous else c1 current;
     index := index;
     lineSegment := [previous; current] |}.

(** One entry per pair of consecutive vertices, in source order. *)
Fixpoint segments_from (previous : Position) (index : nat)
    (coords : list Position) : list Entry :=
  match coords with
  | [] => []
  | current :: rest =>
      segment_entry previous current index :: segments_from current (S index) rest
  end.

Definition line_entries (coords : list Position) : list Entry :=
  match coords with
  | [] => []
  | first :: rest => segments_from first 1 rest
  end.

(** The entries [lineTree] loads for one feature of the input: those of a
    LineString; none for a MultiLineString, whose parts are handed to
    [featureEach] inside a collection that holds them under [features] in
    place of an array; an exception otherwise. *)
Definition feature_entries (f : Feature) : Result (list Entry) :=
  match geometry f with
  | LineString cs => Ok (line_entries cs)
  | MultiLineString css => Ok []
  | _ => Throw InvalidGeometryType
  end.

(** What section 4.1 asks of a MultiLineString: the entries of its parts,
    one part after the other. *)
Definition parts_entries (parts : list (list Position)) : list Entry :=
  concat (map line_entries parts).

(** An entry made by [lineTree] for a pair of consecutive vertices. *)
Definition two_points (e : Entry) : Prop :=
  exists a b k, e = segment_entry a b k.

(** What one run of the exact test adds to [results]. *)
Definition emitted (e1 e2 : Entry) : list Item :=
  match intersects (lineSegment e1) (lineSegment e2) with
  | Ok (Some p) => [Fresh p]
  | _ => []
  end.

(** The points the two nested loops collect, for the segment lists of the
    two inputs. *)
Definition pipeline_points {rbush : RBush} (segments1 segments2 : list Entry)
  : list Item :=
  all (load segments1) ≫= fun e1 => search (load segments2) e1 ≫= emitted e1.

(** The records debug mode appends after the points: the polygons of the
    two trees, then the feature objects of the two inputs. *)
Definition debug_records (polygons1 polygons2 : list Feature)
    (line1 line2 : GeoJSON loc) : list Item :=
  map Fresh polygons1 ++ map Fresh polygons2 ++
  map Input (features_of line1) ++
  map Input (features_of line2).

(** [m] is the lesser (greater) of [a] and [b] in the order of the numbers. *)
Definition is_min (m a b : float) : Prop :=
  (m = a \/ m = b) /\ (m <=? a) = true /\ (m <=? b) = true.
Definition is_max (m a b : float) : Prop :=
  (m = a \/ m = b) /\ (a <=? m) = true /\ (b <=? m) = true.

Definition not_nan (p : Position) : Prop :=
  is_nan (c0 p) = false /\ is_nan (c1 p) = false.

(** *** Binary64 numbers as rationals *)

(** Every finite binary64 number is an integer multiple of [2^-1074]:
    [SF2Z] is that integer, for [(-1)^s * m * 2^e] the integer
    [(-1)^s * m * 2^(e+1074)]. *)
Definition SF2Z (s : spec_float) : Z :=
  match s with
  | S754_finite sg m e => cond_Zopp sg (Z.pos m) * 2 ^ (e + 1074)
  | _ => 0
  end.

(** The rational a finite number denotes. *)
Definition F2Q (x : float) : Q := Qmake (SF2Z (Prim2SF x)) (2 ^ 1074).

Definition SFfinite (s : spec_float) : Prop :=
  match s with
  | S754_zero _ | S754_finite _ _ _ => True
  | _ => False
  end.

(** A zero of either sign, or NaN. *)
Definition zeroish (s : spec_float) : Prop :=
  match s with
  | S754_zero _ | S754_nan => True
  | _ => False
  end.

Definition finite_position (p : Position) : Prop :=
  is_finite (c0 p) = true /\ is_finite (c1 p) = true.

(** The segments [p1-p2] and [p3-p4] have a point of the plane in common. *)
Definition meet (p1 p2 p3 p4 : Position) : Prop :=
  exists s t : Q,
    (0 <= s <= 1 /\ 0 <= t <= 1 /\
     F2Q (c0 p1) + s * (F2Q (c0 p2) - F2Q (c0 p1)) ==
       F2Q (c0 p3) + t * (F2Q (c0 p4) - F2Q (c0 p3)) /\
     F2Q (c1 p1) + s * (F2Q (c1 p2) - F2Q (c1 p1)) ==
       F2Q (c1 p3) + t * (F2Q (c1 p4) - F2Q (c1 p3)))%Q.

(** Two index entries whose segments, with finite coordinates, meet. *)
Definition geometrically_intersect (e1 e2 : Entry) : Prop :=
  exists p1 p2 p3 p4,
    lineSegment e1 = [p1; p2] /\ lineSegment e2 = [p3; p4] /\
    finite_position p1 /\ finite_position p2 /\
    finite_position p3 /\ finite_position p4 /\
    meet p1 p2 p3 p4.

(** The leaf features of one input feature: the parts [flatten] returns
    for a MultiLineString, the feature itself otherwise. *)
Definition leaves (f : Feature) : list Feature :=
  if String.eqb (geometry_type (geometry f)) "MultiLineString"
  then features_of (flatten f)
  else [f].

(** Every reference the input holds points to an object. *)
Definition allocated (h : heap) (line : GeoJSON loc) : Prop :=
  forall l, l ∈ features_of line -> is_Some (h !! l).

(** *** Debug colouring of the caller's objects *)

(** The identity of a properties object: the one a single feature owns,
    or one of the store. *)
Inductive PropsId : Type :=
| OwnOf (l : loc)
| SharedAt (p : loc).

#[export] Instance PropsId_eq_dec : EqDecision PropsId.
Proof. solve_decision. Defined.

(** The properties object the feature at [l] holds, if it holds one. *)
Definition props_id (h : heap) (l : loc) : option PropsId :=
  match h !! l with
  | Some f =>
      match properties f with
      | Own _ => Some (OwnOf l)
      | Shared p => if shared h !! p is Some _ then Some (SharedAt p) else None
      | Null => None
      end
  | None => None
  end.

(** The members of a properties object. *)
Definition props_at (h : heap) (id : PropsId) : option (gmap string JSValue) :=
  match id with
  | OwnOf l =>
      match h !! l with
      | Some f => if properties f is Own members then Some members else None
      | None => None
      end
  | SharedAt p => shared h !! p
  end.

(** The members of the properties object of the feature at [l]. *)
Definition props_of (h : heap) (l : loc) : option (gmap string JSValue) :=
  id ← props_id h l; props_at h id.

(** The store after the members of the object [id] went through [g]. *)
Definition write (id : PropsId) (g : gmap string JSValue -> gmap string JSValue)
    (h : heap) : heap :=
  match id with
  | OwnOf l =>
      {| features :=
           alter (fun f => {| geometry := geometry f;
                              properties := if properties f is Own members
                                            then Own (g members)
                                            else properties f |}) l (features h);
         shared := shared h |}
  | SharedAt p => {| features := features h; shared := alter g p (shared h) |}
  end.

(** A properties object after [properties['stroke'] = stroke] and
    [properties['stroke-width'] = 6]. *)
Definition colour (stroke : string) (members : gmap string JSValue)
  : gmap string JSValue :=
  <["stroke-width" := JSNumber 6]> (<["stroke" := JSString stroke]> members).

(** The store after a sequence of colourings. *)
Definition paints (ws : list (PropsId * string)) (h : heap) : heap :=
  foldl (fun h w => write w.1 (colour w.2) h) h ws.

(** The colourings the two loops of debug mode carry out on [refs] with
    their colours, as far as they get: the loop ends at the first feature
    that holds no properties object ([false]). *)
Fixpoint targets (h : heap) (refs : list (loc * string))
  : list (PropsId * string) * bool :=
  match refs with
  | [] => ([], true)
  | (l, c) :: refs =>
      match props_id h l with
      | Some id => let '(ws, ok) := targets h refs in ((id, c) :: ws, ok)
      | None => ([], false)
      end
  end.

(** The colourings of [lineIntersect(line1, line2, true)]. *)
Definition strokes (line1 line2 : GeoJSON loc) : list (loc * string) :=
  map (fun l => (l, "#f00")) (features_of line1) ++
  map (fun l => (l, "#00f")) (features_of line2).

(** Every feature of the input holds a properties object. *)
Definition writable (h : heap) (line : GeoJSON loc) : Prop :=
  forall l, l ∈ features_of line -> is_Some (props_id h l).

(** The colour written last into the object [id] by a sequence of
    colourings, if any. *)
Fixpoint last_stroke (id : PropsId) (ws : list (PropsId * string)) : option string :=
  match ws with
  | [] => None
  | (id', c) :: ws =>
      match last_stroke id ws with
      | Some c' => Some c'
      | None => if decide (id = id') then Some c else None
      end
  end.

(** The polygon around the box of an entry. *)
Definition box_polygon (e : Entry) : Feature :=
  {| geometry := Polygon [[position (minX e) (minY e); position (maxX e) (minY e);
                           position (maxX e) (maxY e); position (minX e) (maxY e);
                           position (minX e) (minY e)]];
     properties := Own ∅ |}.

(** The two three-vertex lines of the source's closing comment. *)
Definition example_heap : heap :=
  {[1%positive := {| geometry := LineString [position 126 (-11); position 129 (-21);
                                             position 135 (-31)];
                     properties := Own ∅ |};
    2%positive := {| geometry := LineString [position 123 (-18); position 131 (-14);
                                             position 137 (-10)];
                     properties := Own {["name" := JSString "second"]} |}]}.

(** *** Definitions for further properties of the code *)

(** Two numbers of the specification that are equal up to the sign of a
    zero: all comparisons of the code treat them alike. *)
Definition SFsame (a b : spec_float) : Prop :=
  match a, b with
  | S754_zero _, S754_zero _ => True
  | _, _ => a = b
  end.

(** [b] is the opposite of [a], up to the sign of a zero. *)
Definition SFneg (a b : spec_float) : Prop := SFsame (SFopp a) b.

(** A position with a NaN coordinate. *)
Definition has_nan (p : Position) : bool := is_nan (c0 p) || is_nan (c1 p).

(** The sum of [g x] over the elements [x] of [l]. *)
Fixpoint total {A : Type} (g : A -> nat) (l : list A) : nat :=
  match l with
  | [] => 0
  | x :: l' => g x + total g l'
  end.

(** The points of the double loop over the segments of the two inputs that
    skips the pairs whose boxes do not overlap, in load order. *)
Definition overlapping_points (segments1 segments2 : list Entry) : list Item :=
  segments1 ≫= fun e1 =>
    filter (fun e2 => overlap e1 e2 = true) segments2 ≫= emitted e1.
(** ** The exact intersection test *)

Lemma intersects_two_points (p1 p2 p3 p4 : Position) :
  intersects [p1; p2] [p3; p4] =
  if denom p1 p2 p3 p4 =? 0 then Ok None
  else if in_unit_interval (uA p1 p2 p3 p4) && in_unit_interval (uB p1 p2 p3 p4)
  then Ok (Some (point (position
         (c0 p1 + uA p1 p2 p3 p4 * (c0 p2 - c0 p1))
         (c1 p1 + uA p1 p2 p3 p4 * (c1 p2 - c1 p1)))))
  else Ok None.
Proof.
  unfold intersects, in_unit_interval, uA, uB, numeA, numeB, denom, geb; simpl.
  destruct (_ =? 0); [by destruct (_ && _) |].
  by rewrite !andb_assoc.
Qed.

(** C1: with a nonzero [denom], the test emits the point
    [(x1 + uA*(x2-x1), y1 + uA*(y2-y1))] when both [uA] and [uB] lie in
    [[0,1]] (bounds included), and no point when either lies outside. *)
Theorem intersects_nonzero_denom (p1 p2 p3 p4 : Position) :
  (denom p1 p2 p3 p4 =? 0) = false ->
  (in_unit_interval (uA p1 p2 p3 p4) = true ->
   in_unit_interval (uB p1 p2 p3 p4) = true ->
   intersects [p1; p2] [p3; p4] =
   Ok (Some (point (position
     (c0 p1 + uA p1 p2 p3 p4 * (c0 p2 - c0 p1))
     (c1 p1 + uA p1 p2 p3 p4 * (c1 p2 - c1 p1)))))) /\
  (in_unit_interval (uA p1 p2 p3 p4) = false \/
   in_unit_interval (uB p1 p2 p3 p4) = false ->
   intersects [p1; p2] [p3; p4] = Ok None).
Proof.
  intros Hd. rewrite intersects_two_points, Hd. split.
  - intros -> ->. reflexivity.
  - intros [-> | ->]; [reflexivity | by rewrite andb_false_r].
Qed.

(** The shared endpoint of [(0,0)-(1,1)] and [(1,1)-(2,0)] is reported:
    there [uA = 1] and [uB = -0], and [-0 >= 0] holds. *)
Lemma intersects_nonzero_denom_witness :
  let p1 := position 0 0 in let p2 := position 1 1 in
  let p3 := position 1 1 in let p4 := position 2 0 in
  (uA p1 p2 p3 p4 = 1 /\ uB p1 p2 p3 p4 = -0) /\
  intersects [p1; p2] [p3; p4] = Ok (Some (point (position 1 1))).
Proof.
  split; [split; reflexivity |].
  exact (proj1 (intersects_nonzero_denom (position 0 0) (position 1 1)
                  (position 1 1) (position 2 0) eq_refl) eq_refl eq_refl).
Defined.

(** ** Facts about binary64 numbers

    Derived from the specification of the primitive operations
    ([Prim2SF], [sub_spec], [mul_spec], [div_spec], [leb_spec], ...). *)

Lemma Prim2SF_nan (x : float) : Prim2SF x = S754_nan <-> is_nan x = true.
Proof.
  unfold Prim2SF. destruct (is_nan x); [done |].
  split; [| done].
  destruct (is_zero x); [done |]. destruct (is_infinity x); [done |].
  destruct (Z.frexp x) as [r e]. destruct (shr_fexp _ _ _ _ _) as [shr e'].
  by destruct (shr_m shr).
Qed.

Lemma zeroish_sub_diag (x : float) : zeroish (Prim2SF (x - x)).
Proof.
  rewrite sub_spec. destruct (Prim2SF x) as [s | s | | s m e]; simpl; try done.
  - by destruct s.
  - by destruct s.
  - by rewrite Z.sub_diag.
Qed.

Lemma zeroish_mul_l (x y : float) : zeroish (Prim2SF x) -> zeroish (Prim2SF (x * y)).
Proof.
  rewrite mul_spec. by destruct (Prim2SF x), (Prim2SF y).
Qed.

Lemma zeroish_mul_r (x y : float) : zeroish (Prim2SF y) -> zeroish (Prim2SF (x * y)).
Proof.
  rewrite mul_spec. by destruct (Prim2SF x), (Prim2SF y).
Qed.

Lemma zeroish_sub (x y : float) :
  zeroish (Prim2SF x) -> zeroish (Prim2SF y) -> zeroish (Prim2SF (x - y)).
Proof.
  rewrite sub_spec. destruct (Prim2SF x) as [[] | | |], (Prim2SF y) as [[] | | |]; done.
Qed.

Lemma Prim2SF_zero : Prim2SF 0 = S754_zero false.
Proof. reflexivity. Qed.

Lemma zeroish_eqb_or_nan (d : float) :
  zeroish (Prim2SF d) -> (d =? 0) = true \/ Prim2SF d = S754_nan.
Proof.
  rewrite FloatAxioms.eqb_spec, Prim2SF_zero. destruct (Prim2SF d); simpl; auto; done.
Qed.

Lemma div_nan_r (n d : float) : Prim2SF d = S754_nan -> Prim2SF (n / d) = S754_nan.
Proof. rewrite div_spec. intros ->. by destruct (Prim2SF n). Qed.

Lemma leb_nan_r (x u : float) : Prim2SF u = S754_nan -> (x <=? u) = false.
Proof. rewrite leb_spec. intros ->. by destruct (Prim2SF x). Qed.

Lemma SFcompare_antisym (a b : spec_float) :
  SFcompare b a = CompOpp <$> SFcompare a b.
Proof.
  destruct a as [[] | [] | | [] m1 e1], b as [[] | [] | | [] m2 e2]; simpl; try done.
  all: rewrite (Z.compare_antisym e1 e2);
    change (PosDef.Pos.compare_cont Eq m2 m1) with (Pos.compare m2 m1);
    change (PosDef.Pos.compare_cont Eq m1 m2) with (Pos.compare m1 m2);
    rewrite (Pos.compare_antisym m1 m2);
    destruct (e1 ?= e2)%Z; simpl; try done; by destruct (m1 ?= m2)%positive.
Qed.

Lemma SFcompare_refl (a : spec_float) : a <> S754_nan -> SFcompare a a = Some Eq.
Proof.
  destruct a as [[] | [] | | [] m e]; simpl; try done.
  all: rewrite Z.compare_refl;
    change (PosDef.Pos.compare_cont Eq m m) with (Pos.compare m m);
    by rewrite Pos.compare_refl.
Qed.

Lemma SFcompare_None (a b : spec_float) :
  a <> S754_nan -> b <> S754_nan -> is_Some (SFcompare a b).
Proof. destruct a, b; simpl; try done; eauto. Qed.

Lemma ltb_leb (a b : float) : (a <? b) = true -> (a <=? b) = true.
Proof.
  rewrite ltb_spec, leb_spec. unfold SFltb, SFleb.
  by destruct (SFcompare _ _) as [[] |].
Qed.

Lemma nltb_leb (a b : float) :
  is_nan a = false -> is_nan b = false -> (a <? b) = false -> (b <=? a) = true.
Proof.
  intros Ha Hb. rewrite ltb_spec, leb_spec. unfold SFltb, SFleb.
  rewrite (SFcompare_antisym (Prim2SF a) (Prim2SF b)).
  destruct (SFcompare_None (Prim2SF a) (Prim2SF b)) as [c ->].
  - rewrite Prim2SF_nan. congruence.
  - rewrite Prim2SF_nan. congruence.
  - by destruct c.
Qed.

Lemma leb_refl (a : float) : is_nan a = false -> (a <=? a) = true.
Proof.
  intros Ha. rewrite leb_spec. unfold SFleb. rewrite SFcompare_refl; [done |].
  rewrite Prim2SF_nan. congruence.
Qed.

Lemma Prim2SF_finite (x : float) : is_finite x = true -> SFfinite (Prim2SF x).
Proof.
  unfold is_finite, Prim2SF. destruct (is_nan x); [done |].
  destruct (is_zero x); [done |]. destruct (is_infinity x); [done |].
  intros _. destruct (Z.frexp x) as [r e]. destruct (shr_fexp _ _ _ _ _) as [shr e'].
  by destruct (shr_m shr).
Qed.

Lemma digits2_pos_bounds (m : positive) :
  (2 ^ (Z.pos (digits2_pos m) - 1) <= Z.pos m < 2 ^ Z.pos (digits2_pos m))%Z.
Proof.
  induction m as [m IH | m IH |]; simpl digits2_pos.
  1, 2: rewrite Pos2Z.inj_succ;
    replace (Z.succ (Z.pos (digits2_pos m)) - 1)%Z
      with (Z.succ (Z.pos (digits2_pos m) - 1)) by lia;
    rewrite !Z.pow_succ_r by lia; lia.
  simpl. lia.
Qed.

Lemma bounded_inv (m : positive) (e : Z) :
  bounded prec emax m e = true ->
  (-1074 <= e)%Z /\ (Z.pos m < 2 ^ 53)%Z /\ ((-1074 < e)%Z -> (2 ^ 52 <= Z.pos m)%Z).
Proof.
  unfold bounded, canonical_mantissa, fexp, SpecFloat.emin, prec, emax.
  intros [Hc _]%andb_prop. apply Z.eqb_eq in Hc.
  pose proof (digits2_pos_bounds m) as [Hlo Hhi].
  set (d := Z.pos (digits2_pos m)) in *.
  assert (0 < d)%Z by (unfold d; lia).
  split; [lia |]. split.
  - apply Z.lt_le_trans with (2 ^ d)%Z; [done |].
    apply Z.pow_le_mono_r; lia.
  - intros He. replace 52%Z with (d - 1)%Z by lia. done.
Qed.

Lemma finite_lt (m1 m2 : positive) (e1 e2 : Z) :
  bounded prec emax m1 e1 = true -> bounded prec emax m2 e2 = true ->
  (e1 < e2)%Z ->
  (Z.pos m1 * 2 ^ (e1 + 1074) < Z.pos m2 * 2 ^ (e2 + 1074))%Z.
Proof.
  intros (Hge1 & Hhi1 & _)%bounded_inv (Hge2 & _ & Hlo2)%bounded_inv He.
  specialize (Hlo2 ltac:(lia)).
  assert (0 < 2 ^ (e1 + 1074))%Z as Hp by (apply Z.pow_pos_nonneg; lia).
  assert (2 * 2 ^ (e1 + 1074) <= 2 ^ (e2 + 1074))%Z as Hq.
  { rewrite <- Z.pow_succ_r by lia. apply Z.pow_le_mono_r; lia. }
  change (2 ^ 53)%Z with (2 * 2 ^ 52)%Z in Hhi1.
  assert (0 < 2 ^ 52)%Z by done.
  nia.
Qed.

Lemma finite_compare (m1 m2 : positive) (e1 e2 : Z) :
  bounded prec emax m1 e1 = true -> bounded prec emax m2 e2 = true ->
  match (e1 ?= e2)%Z with
  | Eq => PosDef.Pos.compare_cont Eq m1 m2
  | Lt => Lt
  | Gt => Gt
  end = (Z.pos m1 * 2 ^ (e1 + 1074) ?= Z.pos m2 * 2 ^ (e2 + 1074))%Z.
Proof.
  intros H1 H2. destruct (Z.compare_spec e1 e2) as [-> | He | He]; symmetry.
  - apply bounded_inv in H2 as (? & _).
    assert (0 < 2 ^ (e2 + 1074))%Z by (apply Z.pow_pos_nonneg; lia).
    change (PosDef.Pos.compare_cont Eq m1 m2) with (Pos.compare m1 m2).
    destruct (Pos.compare_spec m1 m2) as [-> | Hm | Hm].
    + apply Z.compare_refl.
    + apply Z.compare_lt_iff. nia.
    + apply Z.compare_gt_iff. nia.
  - apply Z.compare_lt_iff. by apply finite_lt.
  - apply Z.compare_gt_iff. by apply finite_lt.
Qed.

Lemma SF2Z_sign (sg : bool) (m : positive) (e : Z) :
  bounded prec emax m e = true ->
  (if sg then SF2Z (S754_finite sg m e) < 0 else 0 < SF2Z (S754_finite sg m e))%Z.
Proof.
  intros (He & _)%bounded_inv.
  assert (0 < 2 ^ (e + 1074))%Z by (apply Z.pow_pos_nonneg; lia).
  destruct sg; simpl; nia.
Qed.

Lemma SFcompare_SF2Z (a b : spec_float) :
  valid_binary a = true -> valid_binary b = true ->
  SFfinite a -> SFfinite b ->
  SFcompare a b = Some (SF2Z a ?= SF2Z b)%Z.
Proof.
  destruct a as [sa | | | sa m1 e1], b as [sb | | | sb m2 e2]; try done.
  - intros _ Hb _ _. pose proof (SF2Z_sign sb _ _ Hb) as Hs.
    simpl SFcompare. f_equal. symmetry.
    destruct sb; [by apply Z.compare_gt_iff | by apply Z.compare_lt_iff].
  - intros Ha _ _ _. pose proof (SF2Z_sign sa _ _ Ha) as Hs.
    simpl SFcompare. f_equal. symmetry.
    destruct sa; [by apply Z.compare_lt_iff | by apply Z.compare_gt_iff].
  - intros Ha Hb _ _.
    pose proof (SF2Z_sign sa _ _ Ha) as Hsa. pose proof (SF2Z_sign sb _ _ Hb) as Hsb.
    pose proof (finite_compare m1 m2 e1 e2 Ha Hb) as Hc.
    simpl SFcompare. f_equal. destruct sa, sb.
    + simpl SF2Z.
      replace (- Z.pos m1 * 2 ^ (e1 + 1074) ?= - Z.pos m2 * 2 ^ (e2 + 1074))%Z
        with (- (Z.pos m1 * 2 ^ (e1 + 1074)) ?= - (Z.pos m2 * 2 ^ (e2 + 1074)))%Z
        by (f_equal; lia).
      rewrite Z.compare_opp,
        (Z.compare_antisym (Z.pos m1 * 2 ^ (e1 + 1074)) (Z.pos m2 * 2 ^ (e2 + 1074))),
        <- Hc.
      by destruct (e1 ?= e2)%Z.
    + symmetry. apply Z.compare_lt_iff. lia.
    + symmetry. apply Z.compare_gt_iff. lia.
    + rewrite Hc. simpl SF2Z. f_equal; lia.
Qed.

Lemma Qle_F2Q (a b : float) :
  is_finite a = true -> is_finite b = true ->
  (a <=? b) = true <-> (F2Q a <= F2Q b)%Q.
Proof.
  intros Ha%Prim2SF_finite Hb%Prim2SF_finite.
  rewrite leb_spec. unfold SFleb.
  rewrite (SFcompare_SF2Z _ _ (Prim2SF_valid a) (Prim2SF_valid b) Ha Hb).
  unfold F2Q, Qle; simpl Qnum; simpl Qden.
  rewrite <- Z.mul_le_mono_pos_r by done.
  destruct (Z.compare_spec (SF2Z (Prim2SF a)) (SF2Z (Prim2SF b))); split; try done; lia.
Qed.

Lemma Qlt_F2Q (a b : float) :
  is_finite a = true -> is_finite b = true ->
  (a <? b) = true <-> (F2Q a < F2Q b)%Q.
Proof.
  intros Ha%Prim2SF_finite Hb%Prim2SF_finite.
  rewrite ltb_spec. unfold SFltb.
  rewrite (SFcompare_SF2Z _ _ (Prim2SF_valid a) (Prim2SF_valid b) Ha Hb).
  unfold F2Q, Qlt; simpl Qnum; simpl Qden.
  rewrite <- Z.mul_lt_mono_pos_r by done.
  destruct (Z.compare_spec (SF2Z (Prim2SF a)) (SF2Z (Prim2SF b))); split; try done; lia.
Qed.

Example F2Q_examples :
  (F2Q 1 == 1 /\ F2Q 0.5 == 1 # 2 /\ F2Q (-3) == -3 # 1 /\ F2Q 126 == 126)%Q.
Proof. vm_compute. done. Qed.

Lemma between (s a b : Q) :
  (0 <= s <= 1 -> (a <= a + s * (b - a) <= b) \/ (b <= a + s * (b - a) <= a))%Q.
Proof.
  intros [H0 H1]. destruct (Qlt_le_dec a b) as [Hab | Hab]; [left | right]; nra.
Qed.

Lemma min_max_between (a b : float) (v : Q) :
  is_finite a = true -> is_finite b = true ->
  ((F2Q a <= v <= F2Q b) \/ (F2Q b <= v <= F2Q a))%Q ->
  (is_finite (if a <? b then a else b) = true /\
   is_finite (if b <? a then a else b) = true) /\
  (F2Q (if a <? b then a else b) <= v <= F2Q (if b <? a then a else b))%Q.
Proof.
  intros Ha Hb Hv.
  destruct (a <? b) eqn:Hab, (b <? a) eqn:Hba; (split; [done |]).
  - apply Qlt_F2Q in Hab, Hba; try done. lra.
  - apply Qlt_F2Q in Hab; try done. lra.
  - apply Qlt_F2Q in Hba; try done. lra.
  - assert (~ (F2Q a < F2Q b)%Q) by (rewrite <- Qlt_F2Q by done; congruence).
    assert (~ (F2Q b < F2Q a)%Q) by (rewrite <- Qlt_F2Q by done; congruence).
    lra.
Qed.

(** ** Degenerate pairs *)

Lemma zeroish_denom (p1 p2 p3 p4 : Position) :
  p1 = p2 \/ p3 = p4 -> zeroish (Prim2SF (denom p1 p2 p3 p4)).
Proof.
  intros [-> | ->]; unfold denom; apply zeroish_sub.
  1, 2: apply zeroish_mul_r, zeroish_sub_diag.
  1, 2: apply zeroish_mul_l, zeroish_sub_diag.
Qed.

Lemma intersects_zeroish_denom (p1 p2 p3 p4 : Position) :
  zeroish (Prim2SF (denom p1 p2 p3 p4)) -> intersects [p1; p2] [p3; p4] = Ok None.
Proof.
  intros [Hz | Hn]%zeroish_eqb_or_nan; rewrite intersects_two_points.
  - by rewrite Hz.
  - destruct (_ =? 0); [done |].
    unfold in_unit_interval at 1, uA.
    by rewrite (leb_nan_r 0 _ (div_nan_r _ _ Hn)).
Qed.

Lemma mul_comm (x y : float) : x * y = y * x.
Proof.
  apply Prim2SF_inj. rewrite !mul_spec. unfold SF64mul, SFmul.
  destruct (Prim2SF x) as [sx | sx | | sx mx ex], (Prim2SF y) as [sy | sy | | sy my ey];
    try done; try (by rewrite (xorb_comm sx sy)).
  by rewrite (xorb_comm sx sy), (Pos.mul_comm mx my), (Z.add_comm ex ey).
Qed.

Lemma zeroish_denom_same_direction (p1 p2 p3 p4 : Position) :
  c0 p4 - c0 p3 = c0 p2 - c0 p1 -> c1 p4 - c1 p3 = c1 p2 - c1 p1 ->
  zeroish (Prim2SF (denom p1 p2 p3 p4)).
Proof.
  intros Hx Hy. unfold denom. rewrite Hx, Hy.
  rewrite (mul_comm (c1 p2 - c1 p1)). apply zeroish_sub_diag.
Qed.

(** C3, as amended: a pair whose computed [denom] equals 0 yields no point
    and no exception. So does every pair with a zero-length segment and
    every pair of segments whose coordinate differences are equal as
    computed, whatever the coordinates: there [denom] is a zero, or NaN
    when a difference or product overflowed, and the range test fails on
    NaN. Parallel or collinear segments whose differences round
    differently are not among them. *)
Theorem intersects_zero_denom (p1 p2 p3 p4 : Position) :
  ((denom p1 p2 p3 p4 =? 0) = true -> intersects [p1; p2] [p3; p4] = Ok None) /\
  (p1 = p2 \/ p3 = p4 -> intersects [p1; p2] [p3; p4] = Ok None) /\
  (c0 p4 - c0 p3 = c0 p2 - c0 p1 -> c1 p4 - c1 p3 = c1 p2 - c1 p1 ->
   intersects [p1; p2] [p3; p4] = Ok None).
Proof.
  split; [| split].
  - intros Hd. by rewrite intersects_two_points, Hd.
  - intros H. by apply intersects_zeroish_denom, zeroish_denom.
  - intros Hx Hy. by apply intersects_zeroish_denom, zeroish_denom_same_direction.
Qed.

(** The collinear overlapping segments [(0,0)-(2,0)] and [(1,0)-(3,0)], the
    parallel segments [(0,0)-(1,0)] and [(0,1)-(1,1)], and a zero-length
    segment on another one: no point, no exception. *)
Lemma intersects_zero_denom_witness :
  intersects [position 0 0; position 2 0] [position 1 0; position 3 0] = Ok None /\
  intersects [position 0 0; position 1 0] [position 0 1; position 1 1] = Ok None /\
  intersects [position 1 1; position 1 1] [position 0 0; position 2 2] = Ok None.
Proof.
  split; [| split].
  - exact (proj1 (intersects_zero_denom (position 0 0) (position 2 0)
                    (position 1 0) (position 3 0)) eq_refl).
  - exact (proj2 (proj2 (intersects_zero_denom (position 0 0) (position 1 0)
                           (position 0 1) (position 1 1))) eq_refl eq_refl).
  - exact (proj1 (proj2 (intersects_zero_denom (position 1 1) (position 1 1)
                           (position 0 0) (position 2 2))) (or_introl eq_refl)).
Defined.

(** Section 8: the crossing of [(0,0)-(2,2)] and [(0,2)-(2,0)] is [(1,1)]. *)
Example intersects_crossing :
  intersects [position 0 0; position 2 2] [position 0 2; position 2 0] =
  Ok (Some (point (position 1 1))).
Proof. reflexivity. Qed.


(** Collinear overlapping segments for which [denom] is not zero. The four
    points lie on the line [x = 3y], and the segment [(0,0)-(3,1)] is a
    part of the segment from [(3,1)] to [(-3 * 2^53, -2^53)]. The
    differences [y4 - y3] and [x4 - x3] round to [-2^53] and
    [-(3 * 2^53 + 4)]: [denom] and [numeA] are 4, [numeB] is 0, and the
    test emits the end point [(3,1)]. *)
Lemma intersects_collinear_endpoint :
  let p1 := position 0 0 in
  let p2 := position 3 1 in
  let p3 := position 3 1 in
  let p4 := position (-0x1.8p+54) (-0x1p+53) in
  (finite_position p1 /\ finite_position p2 /\
   finite_position p3 /\ finite_position p4) /\
  (F2Q (c0 p1) == 3 * F2Q (c1 p1) /\ F2Q (c0 p2) == 3 * F2Q (c1 p2) /\
   F2Q (c0 p3) == 3 * F2Q (c1 p3) /\ F2Q (c0 p4) == 3 * F2Q (c1 p4))%Q /\
  (exists t : Q,
     0 <= t <= 1 /\
     F2Q (c0 p1) == F2Q (c0 p3) + t * (F2Q (c0 p4) - F2Q (c0 p3)) /\
     F2Q (c1 p1) == F2Q (c1 p3) + t * (F2Q (c1 p4) - F2Q (c1 p3)))%Q /\
  p2 = p3 /\
  denom p1 p2 p3 p4 = 4 /\
  intersects [p1; p2] [p3; p4] = Ok (Some (point (position 3 1))).
Proof.
  intros p1 p2 p3 p4.
  split; [by repeat split |].
  split; [repeat split; by vm_compute |].
  split.
  { exists (1 # 9007199254740993)%Q.
    split; [split; by vm_compute |]. split; by vm_compute. }
  split; [reflexivity |]. split; reflexivity.
Qed.
(** ** Loops *)

Lemma forEach_pushes {A B : Type} (g : A -> Result (list B))
    (callback : A -> list B -> Result (list B)) (l : list A) (s : list B) :
  (forall a s, a ∈ l -> callback a s = (es ← g a; Ok (s ++ es))) ->
  forEach callback l s = (ess ← mapM g l; Ok (s ++ concat ess)).
Proof.
  revert s. induction l as [| a l IH]; intros s Hcb; simpl.
  - by rewrite app_nil_r.
  - rewrite Hcb by left. destruct (g a) as [es | e]; simpl; [| done].
    rewrite IH by (intros; apply Hcb; by right).
    destruct (mapM g l) as [ess | e]; simpl; [| done].
    by rewrite app_assoc.
Qed.

Lemma forEach_pushes_total {A B : Type} (g : A -> list B)
    (callback : A -> list B -> Result (list B)) (l : list A) (s : list B) :
  (forall a s, a ∈ l -> callback a s = Ok (s ++ g a)) ->
  forEach callback l s = Ok (s ++ (l ≫= g)).
Proof.
  revert s. induction l as [| a l IH]; intros s Hcb; simpl.
  - by rewrite app_nil_r.
  - rewrite Hcb by left. simpl.
    rewrite IH by (intros; apply Hcb; by right).
    by rewrite app_assoc.
Qed.

Lemma mapM_Result_Ok {A B : Type} (g : A -> Result B) (l : list A) (ys : list B) :
  mapM g l = Ok ys <-> Forall2 (fun a y => g a = Ok y) l ys.
Proof.
  revert ys. induction l as [| a l IH]; intros ys; simpl.
  - split; [intros [= <-]; constructor | by inversion 1].
  - destruct (g a) as [y | e] eqn:Hg; simpl.
    + destruct (mapM g l) as [ys' | e] eqn:Hm; simpl.
      * split.
        -- intros [= <-]. constructor; [done | by apply IH].
        -- inversion 1 as [| ? y' ? ys'' Hy Hys]; subst.
           apply IH in Hys. rewrite Hy in Hg.
           injection Hg as ->. by injection Hys as ->.
      * split; [done |]. inversion 1 as [| ? y' ? ys'' Hy Hys]; subst.
        by apply IH in Hys.
    + split; [done |]. inversion 1; congruence.
Qed.

Lemma mapM_Result_Throw {A B : Type} (g : A -> Result B) (l : list A) (e : Error) :
  mapM g l = Throw e -> exists a, a ∈ l /\ g a = Throw e.
Proof.
  induction l as [| a l IH]; simpl; [done |].
  destruct (g a) as [y | e'] eqn:Hg; simpl.
  - destruct (mapM g l) as [ys | e'] eqn:Hm; simpl; [done |].
    intros [= ->]. destruct IH as (a' & ? & ?); [done |].
    exists a'. split; [by right | done].
  - intros [= ->]. exists a. split; [by left | done].
Qed.

(** ** The segment extractor *)

Lemma coordReduce_from_entries (previous : Position) (i : nat)
    (coords : list Position) (entries : list Entry) :
  snd (coordReduce_from (fun previous current index load =>
         let lineSegment := lineString [previous; current] in
         let minX := if c0 previous <? c0 current then c0 previous else c0 current in
         let minY := if c1 previous <? c1 current then c1 previous else c1 current in
         let maxX := if c0 previous >? c0 current then c0 previous else c0 current in
         let maxY := if c1 previous >? c1 current then c1 previous else c1 current in
         (current,
          load ++ [{| minX := minX; minY := minY; maxX := maxX; maxY := maxY;
                      index := index; lineSegment := lineSegment |}]))
       previous i coords entries)
  = entries ++ segments_from previous i coords.
Proof.
  revert previous i entries. induction coords as [| c cs IH]; intros p i entries; simpl.
  - by rewrite app_nil_r.
  - rewrite IH. by rewrite <- app_assoc.
Qed.

Lemma lineTree_load_spec (h : heap) (line : GeoJSON loc) :
  lineTree_load h line =
  (ess ← mapM (fun l => f ← deref h l; feature_entries f) (features_of line);
   Ok (concat ess)).
Proof.
  unfold lineTree_load, featureEach.
  rewrite forEach_pushes with (g := fun l => f ← deref h l; feature_entries f); [done |].
  intros l entries _. destruct (deref h l) as [f | e]; simpl; [| done].
  unfold feature_entries.
  destruct f as [g props]; destruct g as [c | cs | cs | css | css | csss]; simpl; try done.
  - unfold coordReduce; simpl. destruct cs as [| c cs]; simpl.
    + by rewrite app_nil_r.
    + by rewrite coordReduce_from_entries.
  - by rewrite app_nil_r.
Qed.

Lemma segments_from_length (p : Position) (i : nat) (cs : list Position) :
  length (segments_from p i cs) = length cs.
Proof. revert p i. induction cs as [| c cs IH]; intros p i; simpl; [done | by rewrite IH]. Qed.

Lemma segments_from_lookup (p : Position) (i k : nat) (cs : list Position)
    (a b : Position) :
  (p :: cs) !! k = Some a -> cs !! k = Some b ->
  segments_from p i cs !! k = Some (segment_entry a b (i + k)).
Proof.
  revert p i k. induction cs as [| c cs IH]; intros p i k Ha Hb; [done |].
  destruct k as [| k]; simpl in *.
  - injection Ha as ->. injection Hb as ->. by rewrite Nat.add_0_r.
  - rewrite (IH c (S i) k) by done. do 2 f_equal. lia.
Qed.

Lemma line_entries_length (cs : list Position) :
  length (line_entries cs) = (length cs - 1)%nat.
Proof.
  destruct cs as [| c cs]; simpl; [done |].
  rewrite segments_from_length. lia.
Qed.

Lemma line_entries_lookup (cs : list Position) (k : nat) (a b : Position) :
  cs !! k = Some a -> cs !! S k = Some b ->
  line_entries cs !! k = Some (segment_entry a b (S k)).
Proof.
  destruct cs as [| c cs]; [done |]. simpl. intros Ha Hb.
  by apply (segments_from_lookup c 1 k cs a b).
Qed.

Lemma segments_from_shape (p : Position) (i : nat) (cs : list Position) (e : Entry) :
  e ∈ segments_from p i cs -> exists a b k, e = segment_entry a b k.
Proof.
  revert p i. induction cs as [| c cs IH]; intros p i; simpl; [by inversion 1 |].
  intros [-> | He]%elem_of_cons; [by eauto | by eapply IH].
Qed.

Lemma line_entries_shape (cs : list Position) (e : Entry) :
  e ∈ line_entries cs -> exists a b k, e = segment_entry a b k.
Proof.
  destruct cs as [| c cs]; simpl; [by inversion 1 | apply segments_from_shape].
Qed.

Lemma min_spec (a b : float) :
  is_nan a = false -> is_nan b = false ->
  is_min (if a <? b then a else b) a b.
Proof.
  intros Ha Hb. destruct (a <? b) eqn:Hab; (split; [auto |]).
  - split; [by apply leb_refl | by apply ltb_leb].
  - split; [by apply nltb_leb | by apply leb_refl].
Qed.

Lemma max_spec (a b : float) :
  is_nan a = false -> is_nan b = false ->
  is_max (if a >? b then a else b) a b.
Proof.
  intros Ha Hb. unfold gtb. destruct (b <? a) eqn:Hba; (split; [auto |]).
  - split; [by apply leb_refl | by apply ltb_leb].
  - split; [by apply nltb_leb | by apply leb_refl].
Qed.

Lemma min_le_max (a b : float) :
  is_nan a = false -> is_nan b = false ->
  ((if a <? b then a else b) <=? (if a >? b then a else b)) = true.
Proof.
  intros Ha Hb. unfold gtb. destruct (a <? b) eqn:Hab, (b <? a) eqn:Hba.
  - by apply leb_refl.
  - by apply ltb_leb.
  - by apply ltb_leb.
  - by apply leb_refl.
Qed.

(** C4, as amended: a LineString of N >= 2 vertices yields exactly N-1
    entries, the i-th holding the pair (coords[i], coords[i+1]), in source
    order; when neither endpoint has a NaN coordinate, its box bounds are
    the lesser and greater of the endpoints' coordinates, and
    minX <= maxX, minY <= maxY. *)
Theorem lineTree_load_LineString (h : heap) (l : loc) (f : Feature)
    (cs : list Position) :
  h !! l = Some f -> geometry f = LineString cs -> (2 <= length cs)%nat ->
  exists entries,
    lineTree_load h (AFeature l) = Ok entries /\
    length entries = (length cs - 1)%nat /\
    forall i p c, cs !! i = Some p -> cs !! S i = Some c ->
      exists e, entries !! i = Some e /\
        lineSegment e = [p; c] /\
        (not_nan p -> not_nan c ->
         is_min (minX e) (c0 p) (c0 c) /\ is_min (minY e) (c1 p) (c1 c) /\
         is_max (maxX e) (c0 p) (c0 c) /\ is_max (maxY e) (c1 p) (c1 c) /\
         (minX e <=? maxX e) = true /\ (minY e <=? maxY e) = true).
Proof.
  intros Hl Hg _. exists (line_entries cs). split; [| split].
  - rewrite lineTree_load_spec. simpl. unfold deref. rewrite Hl. simpl.
    unfold feature_entries. rewrite Hg. simpl. by rewrite app_nil_r.
  - apply line_entries_length.
  - intros i p c Hp Hc. exists (segment_entry p c (S i)).
    split; [by apply line_entries_lookup |]. split; [done |].
    intros [Hp0 Hp1] [Hc0 Hc1]. simpl.
    split; [by apply min_spec |]. split; [by apply min_spec |].
    split; [by apply max_spec |]. split; [by apply max_spec |].
    split; by apply min_le_max.
Qed.

Lemma lineTree_load_LineString_witness :
  let cs := [position 126 (-11); position 129 (-21); position 135 (-31)] in
  let f := {| geometry := LineString cs; properties := Own ∅ |} in
  let h : heap := {[1%positive := f]} in
  exists entries,
    lineTree_load h (AFeature 1%positive) = Ok entries /\
    length entries = (length cs - 1)%nat /\
    forall i p c, cs !! i = Some p -> cs !! S i = Some c ->
      exists e, entries !! i = Some e /\
        lineSegment e = [p; c] /\
        (not_nan p -> not_nan c ->
         is_min (minX e) (c0 p) (c0 c) /\ is_min (minY e) (c1 p) (c1 c) /\
         is_max (maxX e) (c0 p) (c0 c) /\ is_max (maxY e) (c1 p) (c1 c) /\
         (minX e <=? maxX e) = true /\ (minY e <=? maxY e) = true).
Proof.
  intros cs f h.
  apply (lineTree_load_LineString h 1%positive f cs);
    [reflexivity | reflexivity | simpl; lia].
Defined.

(** With a NaN coordinate the box is not ordered: for the segment
    [(1,0)-(NaN,0)] both [minX] and [maxX] are NaN, and [NaN <= NaN] is
    false. *)
Lemma lineTree_load_nan_box :
  exists e,
    lineTree_load {[1%positive := {| geometry := LineString [position 1 0; position nan 0];
                                     properties := Own ∅ |}]}
      (AFeature 1%positive) = Ok [e] /\
    lineSegment e = [position 1 0; position nan 0] /\
    (minX e <=? maxX e) = false.
Proof. eexists. split; [reflexivity |]. split; reflexivity. Qed.

Lemma elem_of_concat {A : Type} (x : A) (ls : list (list A)) :
  x ∈ concat ls <-> exists l, x ∈ l /\ l ∈ ls.
Proof.
  induction ls as [| l ls IH]; simpl.
  - split; [by inversion 1 | by intros (? & _ & ?%elem_of_nil)].
  - rewrite elem_of_app, IH. split.
    + intros [Hx | (l' & Hx & Hl')]; [exists l | exists l'];
        (split; [done |]); [by left | by right].
    + intros (l' & Hx & [-> | Hl']%elem_of_cons); [by left | right; eauto].
Qed.

Lemma feature_entries_Throw (f : Feature) (e : Error) :
  feature_entries f = Throw e -> e = InvalidGeometryType.
Proof. unfold feature_entries. destruct (geometry f); congruence. Qed.

Lemma feature_entries_leaves (f : Feature) :
  (exists leaf, leaf ∈ leaves f /\ geometry_type (geometry leaf) <> "LineString") <->
  feature_entries f = Throw InvalidGeometryType.
Proof.
  unfold leaves, feature_entries, flatten.
  destruct f as [g props]; destruct g; simpl; split; try done.
  all: try (intros _; eexists; split; [by left | done]).
  - by intros (leaf & ->%list_elem_of_singleton & Hne).
  - by intros (leaf & (cs & -> & _)%list_elem_of_fmap & Hne).
Qed.

Lemma lineTree_load_Throw (h : heap) (line : GeoJSON loc) (e : Error) :
  lineTree_load h line = Throw e -> e = TypeError \/ e = InvalidGeometryType.
Proof.
  rewrite lineTree_load_spec.
  destruct (mapM _ _) as [ess | e'] eqn:Hm; simpl; [done |]. intros [= ->].
  apply mapM_Result_Throw in Hm as (l & _ & Hl). unfold deref in Hl.
  destruct (h !! l); simpl in Hl; [right; by eapply feature_entries_Throw | left; congruence].
Qed.

Lemma lineTree_load_Ok (h : heap) (line : GeoJSON loc) (entries : list Entry) :
  lineTree_load h line = Ok entries ->
  allocated h line /\
  forall e, e ∈ entries -> exists a b k, e = segment_entry a b k.
Proof.
  rewrite lineTree_load_spec.
  destruct (mapM _ _) as [ess | e'] eqn:Hm; simpl; [| done]. intros [= <-].
  apply mapM_Result_Ok in Hm. split.
  - intros l Hl. apply list_elem_of_lookup in Hl as [i Hi].
    destruct (Forall2_lookup_l _ _ _ i l Hm Hi) as (es & _ & Hes).
    unfold deref in Hes. by destruct (h !! l).
  - intros e (es & He & Hes)%elem_of_concat.
    apply list_elem_of_lookup in Hes as [i Hi].
    destruct (Forall2_lookup_r _ _ _ i es Hm Hi) as (l & _ & Hl).
    unfold deref in Hl. destruct (h !! l) as [f |]; simpl in Hl; [| done].
    unfold feature_entries in Hl. destruct (geometry f); try done; injection Hl as <-.
    + by eapply line_entries_shape.
    + by apply elem_of_nil in He.
Qed.

(** ** The two nested loops *)

Lemma intersects_Ok (p1 p2 p3 p4 : Position) :
  exists r, intersects [p1; p2] [p3; p4] = Ok r.
Proof.
  rewrite intersects_two_points.
  destruct (_ =? 0); [by eauto |]. destruct (_ && _); by eauto.
Qed.

Lemma push_emitted (e1 e2 : Entry) (results : list Item) :
  two_points e1 -> two_points e2 ->
  (point ← intersects (lineSegment e1) (lineSegment e2);
   Ok (match point with
       | Some p => results ++ [Fresh p]
       | None => results
       end)) = Ok (results ++ emitted e1 e2).
Proof.
  intros (a1 & b1 & k1 & ->) (a2 & b2 & k2 & ->). unfold emitted. simpl lineSegment.
  destruct (intersects_Ok a1 b1 a2 b2) as [[p |] ->]; simpl; [done |].
  by rewrite app_nil_r.
Qed.

Lemma pair_loops (inner : Entry -> list Entry) (outer : list Entry) :
  (forall e1, e1 ∈ outer -> two_points e1) ->
  (forall e1 e2, e1 ∈ outer -> e2 ∈ inner e1 -> two_points e2) ->
  forEach (fun index1 results =>
    let lineSegment1 := lineSegment index1 in
    forEach (fun index2 results =>
      let lineSegment2 := lineSegment index2 in
      point ← intersects lineSegment1 lineSegment2;
      Ok (match point with
          | Some p => results ++ [Fresh p]
          | None => results
          end)) (inner index1) results) outer []
  = Ok (outer ≫= fun e1 => inner e1 ≫= emitted e1).
Proof.
  intros H1 H2.
  rewrite forEach_pushes_total with (g := fun e1 => inner e1 ≫= emitted e1); [done |].
  intros e1 results He1. simpl.
  rewrite forEach_pushes_total with (g := emitted e1); [done |].
  intros e2 results' He2. apply push_emitted; eauto.
Qed.

Lemma elem_of_emitted (p : Item) (e1 e2 : Entry) :
  p ∈ emitted e1 e2 <->
  exists q, intersects (lineSegment e1) (lineSegment e2) = Ok (Some q) /\ p = Fresh q.
Proof.
  unfold emitted. destruct (intersects _ _) as [[q |] | e]; split.
  - intros ->%list_elem_of_singleton. eauto.
  - intros (q' & [= <-] & ->). by apply list_elem_of_singleton.
  - by inversion 1.
  - by intros (q' & [=] & _).
  - by inversion 1.
  - by intros (q' & [=] & _).
Qed.

Lemma naiveIntersect_spec (h : heap) (line1 line2 : GeoJSON loc)
    (segments1 segments2 : list Entry) :
  lineTree_load h line1 = Ok segments1 ->
  lineTree_load h line2 = Ok segments2 ->
  naiveIntersect h line1 line2
  = Ok (segments1 ≫= fun e1 => segments2 ≫= emitted e1).
Proof.
  intros H1 H2. unfold naiveIntersect. rewrite H1, H2. simpl.
  apply lineTree_load_Ok in H1 as [_ H1]. apply lineTree_load_Ok in H2 as [_ H2].
  apply (pair_loops (fun _ => segments2)).
  - intros e He. by apply H1.
  - intros e1 e2 _ He. by apply H2.
Qed.

Section Pipeline.
Context {rbush : RBush}.

Lemma elem_of_all (entries : list Entry) (e : Entry) :
  Forall BoundingBox entries ->
  e ∈ all (load entries) <-> e ∈ entries.
Proof. intros Hboxes. by rewrite all_load. Qed.

Lemma elem_of_search (entries : list Entry) (q e : Entry) :
  Forall BoundingBox entries -> BoundingBox q ->
  e ∈ search (load entries) q <-> e ∈ entries /\ overlap q e = true.
Proof. intros Hboxes Hq. rewrite search_load, list_elem_of_filter by done. tauto. Qed.

Lemma intersections_spec (segments1 segments2 : list Entry) :
  (forall e, e ∈ segments1 -> two_points e) ->
  (forall e, e ∈ segments2 -> two_points e) ->
  intersections (load segments1) (load segments2)
  = Ok (all (load segments1) ≫= fun e1 =>
        search (load segments2) e1 ≫= emitted e1).
Proof.
  intros H1 H2. unfold intersections. apply pair_loops.
  - intros e He. by apply H1, all_stored.
  - intros e1 e2 _ He. by eapply H2, search_stored.
Qed.

End Pipeline.

(** ** Debug colouring *)

Lemma colour_colour (c c' : string) (members : gmap string JSValue) :
  colour c (colour c' members) = colour c members.
Proof.
  unfold colour. apply map_eq. intros k. rewrite !lookup_insert.
  by repeat case_decide.
Qed.

Lemma lookup_heap (h : heap) (l : loc) : h !! l = features h !! l.
Proof. reflexivity. Qed.

Lemma props_id_write (id : PropsId) (g : gmap string JSValue -> gmap string JSValue)
    (h : heap) (l : loc) :
  props_id (write id g h) l = props_id h l.
Proof.
  unfold props_id. rewrite !lookup_heap. destruct id as [l' | p]; cbn [write features shared].
  - rewrite lookup_alter.
    destruct (decide (l' = l)) as [-> |]; [| done].
    destruct (features h !! l) as [f |]; simpl; [| done].
    by destruct (properties f).
  - destruct (features h !! l) as [f |]; [| done].
    destruct (properties f) as [m | p' |]; try done.
    rewrite lookup_alter. destruct (decide (p = p')) as [-> |]; [| done].
    by destruct (shared h !! p').
Qed.

Lemma props_at_write (id id' : PropsId)
    (g : gmap string JSValue -> gmap string JSValue) (h : heap) :
  props_at (write id' g h) id
  = if decide (id = id') then g <$> props_at h id else props_at h id.
Proof.
  destruct id as [l | p], id' as [l' | p']; unfold props_at; rewrite ?lookup_heap;
    cbn [write features shared].
  - rewrite lookup_alter.
    destruct (decide (l' = l)) as [-> | Hne].
    + rewrite decide_True by done.
      destruct (features h !! l) as [f |]; simpl; [| done]. by destruct (properties f).
    + rewrite decide_False by congruence. done.
  - by rewrite decide_False by done.
  - by rewrite decide_False by done.
  - rewrite lookup_alter. destruct (decide (p' = p)) as [-> | Hne].
    + by rewrite decide_True by done.
    + by rewrite decide_False by congruence.
Qed.

Lemma geometry_write (id : PropsId) (g : gmap string JSValue -> gmap string JSValue)
    (h : heap) (l : loc) :
  geometry <$> write id g h !! l = geometry <$> h !! l.
Proof.
  rewrite !lookup_heap. destruct id as [l' | p]; cbn [write features]; [| done].
  rewrite lookup_alter.
  destruct (decide (l' = l)) as [-> |]; [| done].
  by destruct (features h !! l).
Qed.

Lemma write_write (id : PropsId) (c c' : string) (h : heap) :
  write id (colour c) (write id (colour c') h) = write id (colour c) h.
Proof.
  destruct id as [l | p]; unfold write; simpl; f_equal.
  - rewrite alter_alter_eq. apply alter_ext. intros f _. simpl.
    destruct (properties f); simpl; try done. by rewrite colour_colour.
  - rewrite alter_alter_eq. apply alter_ext. intros m _. simpl.
    apply colour_colour.
Qed.

Lemma write_commute (id id' : PropsId)
    (g g' : gmap string JSValue -> gmap string JSValue) (h : heap) :
  id <> id' -> write id g (write id' g' h) = write id' g' (write id g h).
Proof.
  intros Hne. destruct id as [l | p], id' as [l' | p']; unfold write; simpl;
    try done; f_equal; apply alter_alter_ne; congruence.
Qed.

Lemma paints_snoc (ws : list (PropsId * string)) (w : PropsId * string) (h : heap) :
  paints (ws ++ [w]) h = write w.1 (colour w.2) (paints ws h).
Proof. unfold paints. by rewrite foldl_app. Qed.

Lemma paints_absorb (ws : list (PropsId * string)) (id : PropsId) (c c0 : string)
    (h : heap) :
  write id (colour c) (paints ws (write id (colour c0) h))
  = write id (colour c) (paints ws h).
Proof.
  revert h. induction ws as [| [id1 c1] ws IH]; intros h.
  - apply write_write.
  - change (write id (colour c) (paints ws (write id1 (colour c1) (write id (colour c0) h)))
            = write id (colour c) (paints ws (write id1 (colour c1) h))).
    destruct (decide (id1 = id)) as [-> | Hne].
    + by rewrite write_write.
    + by rewrite write_commute, IH.
Qed.

Lemma paints_idem (ws : list (PropsId * string)) (h : heap) :
  paints ws (paints ws h) = paints ws h.
Proof.
  revert h. induction ws as [| [id c] ws IH] using rev_ind; intros h; [done |].
  rewrite !paints_snoc. simpl. by rewrite paints_absorb, IH.
Qed.

Lemma props_id_paints (ws : list (PropsId * string)) (h : heap) (l : loc) :
  props_id (paints ws h) l = props_id h l.
Proof.
  revert h. induction ws as [| w ws IH]; intros h; [done |].
  change (props_id (paints ws (write w.1 (colour w.2) h)) l = props_id h l).
  by rewrite IH, props_id_write.
Qed.

Lemma geometry_paints (ws : list (PropsId * string)) (h : heap) (l : loc) :
  geometry <$> paints ws h !! l = geometry <$> h !! l.
Proof.
  revert h. induction ws as [| w ws IH]; intros h; [done |].
  change (geometry <$> paints ws (write w.1 (colour w.2) h) !! l = geometry <$> h !! l).
  by rewrite IH, geometry_write.
Qed.

Lemma targets_ext (h h' : heap) (refs : list (loc * string)) :
  (forall l, props_id h' l = props_id h l) -> targets h' refs = targets h refs.
Proof.
  intros Hid. induction refs as [| [l c] refs IH]; simpl; [done |].
  by rewrite Hid, IH.
Qed.

Lemma targets_app (h : heap) (refs1 refs2 : list (loc * string)) :
  targets h (refs1 ++ refs2)
  = let '(ws1, ok1) := targets h refs1 in
    if ok1 then let '(ws2, ok2) := targets h refs2 in (ws1 ++ ws2, ok2)
    else (ws1, false).
Proof.
  induction refs1 as [| [l c] refs1 IH]; simpl.
  - by destruct (targets h refs2).
  - destruct (props_id h l) as [id |]; [| done]. rewrite IH.
    destruct (targets h refs1) as [ws1 [|]]; [| done].
    by destruct (targets h refs2).
Qed.

Lemma paint_step (c : string) (l : loc) (results : list Item) (h : heap) :
  (setProperty l "stroke" (JSString c);;
   setProperty l "stroke-width" (JSNumber 6);;
   mret (results ++ [Input l])) h
  = match props_id h l with
    | Some id => (Ok (results ++ [Input l]), write id (colour c) h)
    | None => (Throw TypeError, h)
    end.
Proof.
  unfold mbind, JS_bind, setProperty, mret, JS_ret, props_id.
  rewrite !lookup_heap.
  destruct (features h !! l) as [f |] eqn:Hl; [| done].
  destruct (properties f) as [m | p |] eqn:Hp; [| | done].
  - rewrite lookup_heap. cbn [features]. rewrite lookup_insert_eq.
    cbn [properties geometry features shared].
    f_equal. unfold write. f_equal. rewrite insert_insert_eq.
    apply map_eq. intros l'.
    rewrite lookup_alter, lookup_insert. destruct (decide (l = l')) as [<- |]; [| done].
    rewrite Hl. simpl. by rewrite Hp.
  - destruct (shared h !! p) as [m |] eqn:Hm; [| done].
    rewrite lookup_heap. cbn [features]. rewrite Hl, Hp. cbn [shared].
    rewrite lookup_insert_eq.
    f_equal. unfold write. f_equal. rewrite insert_insert_eq.
    apply map_eq. intros p'.
    rewrite lookup_alter, lookup_insert. destruct (decide (p = p')) as [<- |]; [| done].
    by rewrite Hm.
Qed.

Lemma colour_loop (c : string) (ls : list loc) (results : list Item) (h : heap) :
  forEach (fun feature results =>
    setProperty feature "stroke" (JSString c);;
    setProperty feature "stroke-width" (JSNumber 6);;
    mret (results ++ [Input feature])) ls results h
  = let '(ws, ok) := targets h (map (fun l => (l, c)) ls) in
    (if ok then Ok (results ++ map Input ls) else Throw TypeError, paints ws h).
Proof.
  revert results h. induction ls as [| l ls IH]; intros results h.
  - simpl. by rewrite app_nil_r.
  - cbn [forEach]. unfold mbind at 1, JS_bind at 1. rewrite paint_step. simpl.
    destruct (props_id h l) as [id |] eqn:Hid; [| done].
    rewrite IH. rewrite (targets_ext h) by (intros; apply props_id_write).
    destruct (targets h _) as [ws ok]. simpl.
    by rewrite <- app_assoc.
Qed.

Lemma colour_loops (line1 line2 : GeoJSON loc) (results : list Item) (h : heap) :
  (results ← featureEach line1 (fun feature results =>
     setProperty feature "stroke" (JSString "#f00");;
     setProperty feature "stroke-width" (JSNumber 6);;
     mret (results ++ [Input feature])) results;
   results ← featureEach line2 (fun feature results =>
     setProperty feature "stroke" (JSString "#00f");;
     setProperty feature "stroke-width" (JSNumber 6);;
     mret (results ++ [Input feature])) results;
   mret (featureCollection results)) h
  = let '(ws, ok) := targets h (strokes line1 line2) in
    (if ok
     then Ok (featureCollection
                (results ++ map Input (features_of line1) ++
                 map Input (features_of line2)))
     else Throw TypeError, paints ws h).
Proof.
  unfold featureEach, strokes. unfold mbind at 1, JS_bind at 1.
  rewrite colour_loop, targets_app.
  destruct (targets h (map _ (features_of line1))) as [ws1 [|]]; [| done].
  unfold mbind at 1, JS_bind at 1. rewrite colour_loop.
  rewrite (targets_ext h) by (intros; apply props_id_paints).
  destruct (targets h (map _ (features_of line2))) as [ws2 [|]].
  - unfold mret, JS_ret, paints. by rewrite foldl_app, <- app_assoc.
  - unfold paints. by rewrite foldl_app.
Qed.

(** ** The top-level operation *)

Lemma leb_not_nan (a b : float) :
  (a <=? b) = true -> is_nan a = false /\ is_nan b = false.
Proof.
  rewrite leb_spec. intros Hle.
  split; [destruct (is_nan a) eqn:E | destruct (is_nan b) eqn:E]; try done;
    apply Prim2SF_nan in E; rewrite E in Hle; [done |].
  by destruct (Prim2SF a).
Qed.

Lemma eqb_refl (a : float) : is_nan a = false -> (a =? a) = true.
Proof.
  intros Ha. rewrite FloatAxioms.eqb_spec. unfold SFeqb. rewrite SFcompare_refl; [done |].
  rewrite Prim2SF_nan. congruence.
Qed.

Lemma bboxPolygon_BoundingBox (e : Entry) :
  BoundingBox e ->
  bboxPolygon (minX e) (minY e) (maxX e) (maxY e) = Ok (box_polygon e).
Proof.
  intros [[Hx _]%leb_not_nan [Hy _]%leb_not_nan].
  unfold bboxPolygon, polygon, ring_check, strict_neq; simpl.
  by rewrite !eqb_refl.
Qed.

Lemma mapM_Result_total {A B : Type} (g : A -> Result B) (f : A -> B) (l : list A) :
  (forall a, a ∈ l -> g a = Ok (f a)) -> mapM g l = Ok (f <$> l).
Proof.
  induction l as [| a l IH]; intros Hg; simpl; [done |].
  rewrite (Hg a) by left. simpl. rewrite IH; [done |]. intros; apply Hg; by right.
Qed.

Section TopLevel.
Context {rbush : RBush}.

Lemma createPolygonsFromTree_Ok (segments : list Entry) :
  Forall BoundingBox segments ->
  createPolygonsFromTree (load segments) = Ok (box_polygon <$> all (load segments)).
Proof.
  intros Hboxes. unfold createPolygonsFromTree. apply mapM_Result_total.
  intros e He%all_stored. apply bboxPolygon_BoundingBox.
  by eapply Forall_forall in Hboxes.
Qed.

Lemma lineIntersect_Throw1 (h : heap) (line1 line2 : GeoJSON loc) (debug : bool)
    (e : Error) :
  lineTree_load h line1 = Throw e ->
  lineIntersect line1 line2 debug h = (Throw e, h).
Proof.
  intros H1. unfold lineIntersect, mbind at 1, JS_bind at 1, reading, lineTree.
  by rewrite H1.
Qed.

Lemma lineIntersect_Throw2 (h : heap) (line1 line2 : GeoJSON loc) (debug : bool)
    (segments1 : list Entry) (e : Error) :
  lineTree_load h line1 = Ok segments1 ->
  lineTree_load h line2 = Throw e ->
  lineIntersect line1 line2 debug h = (Throw e, h).
Proof.
  intros H1 H2. unfold lineIntersect, mbind at 1, JS_bind at 1, reading, lineTree.
  rewrite H1. simpl. unfold mbind at 1, JS_bind at 1. by rewrite H2.
Qed.

Lemma lineIntersect_Ok (h : heap) (line1 line2 : GeoJSON loc) (debug : bool)
    (segments1 segments2 : list Entry) :
  lineTree_load h line1 = Ok segments1 ->
  lineTree_load h line2 = Ok segments2 ->
  lineIntersect line1 line2 debug h =
  if debug
  then
    match createPolygonsFromTree (load segments1) with
    | Ok polygons1 =>
        match createPolygonsFromTree (load segments2) with
        | Ok polygons2 =>
            let '(ws, ok) := targets h (strokes line1 line2) in
            (if ok
             then Ok (featureCollection
                        (pipeline_points segments1 segments2 ++
                         debug_records polygons1 polygons2 line1 line2))
             else Throw TypeError, paints ws h)
        | Throw e => (Throw e, h)
        end
    | Throw e => (Throw e, h)
    end
  else (Ok (featureCollection (pipeline_points segments1 segments2)), h).
Proof.
  intros H1 H2. unfold lineIntersect, mbind at 1, JS_bind at 1, reading, lineTree.
  rewrite H1. simpl. unfold mbind at 1, JS_bind at 1. rewrite H2. simpl.
  unfold mbind at 1, JS_bind at 1.
  destruct (lineTree_load_Ok _ _ _ H1) as [Ha1 Ht1].
  destruct (lineTree_load_Ok _ _ _ H2) as [Ha2 Ht2].
  rewrite intersections_spec by done.
  destruct debug; [| done].
  unfold mbind at 1, JS_bind at 1.
  destruct (createPolygonsFromTree (load segments1)) as [polygons1 | e]; [| done].
  unfold mbind at 1, JS_bind at 1.
  destruct (createPolygonsFromTree (load segments2)) as [polygons2 | e]; [| done].
  rewrite colour_loops. destruct (targets h _) as [ws [|]]; [| done].
  unfold debug_records, pipeline_points. do 2 f_equal.
  by rewrite <- !app_assoc.
Qed.

End TopLevel.

(** ** Broad phase against the naive double loop *)

Lemma overlap_meet (p1 p2 p3 p4 : Position) (i j : nat) :
  finite_position p1 -> finite_position p2 ->
  finite_position p3 -> finite_position p4 ->
  meet p1 p2 p3 p4 ->
  overlap (segment_entry p1 p2 i) (segment_entry p3 p4 j) = true.
Proof.
  intros [Hx1 Hy1] [Hx2 Hy2] [Hx3 Hy3] [Hx4 Hy4] (s & t & Hs & Ht & Hx & Hy).
  destruct (min_max_between (c0 p1) (c0 p2) _ Hx1 Hx2
              (between s (F2Q (c0 p1)) (F2Q (c0 p2)) Hs)) as [[? ?] [? ?]].
  destruct (min_max_between (c1 p1) (c1 p2) _ Hy1 Hy2
              (between s (F2Q (c1 p1)) (F2Q (c1 p2)) Hs)) as [[? ?] [? ?]].
  destruct (min_max_between (c0 p3) (c0 p4) _ Hx3 Hx4
              (between t (F2Q (c0 p3)) (F2Q (c0 p4)) Ht)) as [[? ?] [? ?]].
  destruct (min_max_between (c1 p3) (c1 p4) _ Hy3 Hy4
              (between t (F2Q (c1 p3)) (F2Q (c1 p4)) Ht)) as [[? ?] [? ?]].
  unfold overlap, segment_entry, geb, gtb; simpl.
  repeat (apply andb_true_intro; split); apply Qle_F2Q; try done; lra.
Qed.

Section BroadPhase.
Context {rbush : RBush}.

Lemma pipeline_points_stored (segments1 segments2 : list Entry) (p : Item) :
  p ∈ pipeline_points segments1 segments2 ->
  exists e1 e2 q, e1 ∈ segments1 /\ e2 ∈ segments2 /\
    intersects (lineSegment e1) (lineSegment e2) = Ok (Some q) /\ p = Fresh q.
Proof.
  unfold pipeline_points. rewrite list_elem_of_bind.
  intros (e1 & (e2 & (q & ? & ?)%elem_of_emitted & ?%search_stored)%list_elem_of_bind
          & He1%all_stored).
  exists e1, e2, q. repeat split; assumption.
Qed.

Lemma elem_of_pipeline_points (segments1 segments2 : list Entry) (p : Item) :
  Forall BoundingBox segments1 -> Forall BoundingBox segments2 ->
  p ∈ pipeline_points segments1 segments2 <->
  exists e1 e2 q, e1 ∈ segments1 /\ e2 ∈ segments2 /\ overlap e1 e2 = true /\
    intersects (lineSegment e1) (lineSegment e2) = Ok (Some q) /\ p = Fresh q.
Proof.
  intros Hb1 Hb2. unfold pipeline_points. rewrite list_elem_of_bind. split.
  - intros (e1 & (e2 & (q & ? & ?)%elem_of_emitted & He2)%list_elem_of_bind & He1).
    rewrite elem_of_all in He1 by done.
    apply elem_of_search in He2 as [? ?]; [| done | by eapply Forall_forall in Hb1].
    exists e1, e2, q. repeat split; assumption.
  - intros (e1 & e2 & q & ? & ? & ? & ? & ?). exists e1.
    split; [| by apply elem_of_all]. apply list_elem_of_bind. exists e2.
    split; [apply elem_of_emitted; by exists q |].
    apply elem_of_search; [done | by eapply Forall_forall in Hb1 | done].
Qed.

(** C2, as amended: when the boxes of all segments are BoundingBoxes
    (no bound is NaN), every pair of segments with finite coordinates that
    have a point in common is handed to the exact test; the points
    [lineIntersect] returns are those the exact test yields on the pairs
    whose boxes overlap, each of which the naive double loop yields too. *)
Theorem lineIntersect_broad_phase (h : heap) (line1 line2 : GeoJSON loc)
    (segments1 segments2 : list Entry) :
  lineTree_load h line1 = Ok segments1 ->
  lineTree_load h line2 = Ok segments2 ->
  Forall BoundingBox segments1 -> Forall BoundingBox segments2 ->
  exists points naive,
    lineIntersect line1 line2 false h = (Ok (featureCollection points), h) /\
    naiveIntersect h line1 line2 = Ok naive /\
    (forall e1 e2, e1 ∈ segments1 -> e2 ∈ segments2 ->
       geometrically_intersect e1 e2 ->
       e1 ∈ all (load segments1) /\ e2 ∈ search (load segments2) e1) /\
    (forall p, p ∈ points <->
       exists e1 e2 q, e1 ∈ segments1 /\ e2 ∈ segments2 /\ overlap e1 e2 = true /\
         intersects (lineSegment e1) (lineSegment e2) = Ok (Some q) /\ p = Fresh q) /\
    (forall p, p ∈ naive <->
       exists e1 e2 q, e1 ∈ segments1 /\ e2 ∈ segments2 /\
         intersects (lineSegment e1) (lineSegment e2) = Ok (Some q) /\ p = Fresh q) /\
    (forall p, p ∈ points -> p ∈ naive).
Proof.
  intros H1 H2 Hb1 Hb2.
  assert (forall p, p ∈ (segments1 ≫= fun e1 => segments2 ≫= emitted e1) <->
    exists e1 e2 q, e1 ∈ segments1 /\ e2 ∈ segments2 /\
      intersects (lineSegment e1) (lineSegment e2) = Ok (Some q) /\ p = Fresh q) as Hn.
  { intros p. rewrite list_elem_of_bind. split.
    - intros (e1 & (e2 & (q & ? & ?)%elem_of_emitted & ?)%list_elem_of_bind & ?).
      exists e1, e2, q. repeat split; assumption.
    - intros (e1 & e2 & q & ? & ? & ? & ?). exists e1. split; [| done].
      apply list_elem_of_bind. exists e2. split; [| done].
      apply elem_of_emitted. by exists q. }
  eexists _, _.
  split; [by apply (lineIntersect_Ok h line1 line2 false segments1 segments2) |].
  split; [by apply naiveIntersect_spec |].
  split; [| split; [intros p; by apply elem_of_pipeline_points | split; [apply Hn |]]].
  - intros e1 e2 He1 He2 (p1 & p2 & p3 & p4 & Hs1 & Hs2 & ? & ? & ? & ? & Hmeet).
    split; [by apply elem_of_all |].
    apply elem_of_search; [done | by eapply Forall_forall in Hb1 |]. split; [done |].
    destruct (proj2 (lineTree_load_Ok _ _ _ H1) e1 He1) as (a1 & b1 & k1 & ->).
    destruct (proj2 (lineTree_load_Ok _ _ _ H2) e2 He2) as (a2 & b2 & k2 & ->).
    simpl in Hs1, Hs2. injection Hs1 as -> ->. injection Hs2 as -> ->.
    by apply overlap_meet.
  - intros p (e1 & e2 & q & ? & ? & ? & ?)%pipeline_points_stored.
    apply Hn. exists e1, e2, q. repeat split; assumption.
Qed.

End BroadPhase.

(** The two segments of the end-to-end example of section 8 meet at
    [s = 11/23], [t = 51/92]. *)
Lemma meet_end_to_end :
  meet (position 126 (-11)) (position 129 (-21))
       (position 123 (-18)) (position 131 (-14)).
Proof.
  exists (11 # 23)%Q, (51 # 92)%Q.
  split; [split; by vm_compute |]. split; [split; by vm_compute |].
  split; by vm_compute.
Qed.

Lemma lineIntersect_broad_phase_witness :
  let e1 := segment_entry (position 126 (-11)) (position 129 (-21)) 1 in
  let e2 := segment_entry (position 123 (-18)) (position 131 (-14)) 1 in
  let h : heap :=
    {[1%positive := {| geometry := LineString [position 126 (-11); position 129 (-21)];
                       properties := Own ∅ |};
      2%positive := {| geometry := LineString [position 123 (-18); position 131 (-14)];
                       properties := Own ∅ |}]} in
  (exists points naive,
     lineIntersect (rbush := scan) (AFeature 1%positive) (AFeature 2%positive) false h
       = (Ok (featureCollection points), h) /\
     naiveIntersect h (AFeature 1%positive) (AFeature 2%positive) = Ok naive /\
     (forall p, p ∈ points -> p ∈ naive)) /\
  e2 ∈ search (RBush := scan) (load [e2]) e1.
Proof.
  intros e1 e2 h.
  destruct (lineIntersect_broad_phase (rbush := scan) h
              (AFeature 1%positive) (AFeature 2%positive) [e1] [e2] eq_refl eq_refl)
    as (points & naive & Hp & Hn & Hgeo & _ & _ & Hsub).
  { by repeat constructor. }
  { by repeat constructor. }
  split.
  - exists points, naive. split; [exact Hp |]. split; [exact Hn | exact Hsub].
  - apply (Hgeo e1 e2); [apply list_elem_of_here | apply list_elem_of_here |].
    exists (position 126 (-11)), (position 129 (-21)),
           (position 123 (-18)), (position 131 (-14)).
    split; [reflexivity |]. split; [reflexivity |].
    split; [by split |]. split; [by split |]. split; [by split |]. split; [by split |].
    exact meet_end_to_end.
Defined.

(** Section 8, end to end: one point, the closed-form solution in binary64,
    [(127.43478260869566, -15.782608695652174)]. *)
Example lineIntersect_end_to_end :
  fst (lineIntersect (rbush := scan) (AFeature 1%positive) (AFeature 2%positive) false
    {[1%positive := {| geometry := LineString [position 126 (-11); position 129 (-21)];
                       properties := Own ∅ |};
      2%positive := {| geometry := LineString [position 123 (-18); position 131 (-14)];
                       properties := Own ∅ |}]})
  = Ok (featureCollection
          [Fresh (point (position 0x1.fdbd37a6f4deap+6 (-0x1.f90b21642c859p+3)))]).
Proof. reflexivity. Qed.

(** The naive loop can report a point the pipeline does not. For
    [(-1,0)-(2^-60,0)] and [(2^-59,-1)-(2^-59,1)] the differences
    [x2 - x1] and [x3 - x1] both round to 1, so the exact test finds
    [uA = 1], [uB = 0.5] and the point [(0,0)]; the boxes do not overlap
    ([2^-60 < 2^-59]), so no index hands the pair to the test. *)
Lemma lineIntersect_misses_rounded_point :
  let h : heap :=
    {[1%positive := {| geometry := LineString [position (-1) 0; position 0x1p-60 0];
                       properties := Own ∅ |};
      2%positive := {| geometry := LineString [position 0x1p-59 (-1); position 0x1p-59 1];
                       properties := Own ∅ |}]} in
  (forall rbush : RBush,
     lineIntersect (AFeature 1%positive) (AFeature 2%positive) false h
     = (Ok (featureCollection []), h)) /\
  naiveIntersect h (AFeature 1%positive) (AFeature 2%positive)
  = Ok [Fresh (point (position 0 0))].
Proof.
  intros h. split; [| reflexivity]. intros rbush.
  rewrite (lineIntersect_Ok h _ _ false
             [segment_entry (position (-1) 0) (position 0x1p-60 0) 1]
             [segment_entry (position 0x1p-59 (-1)) (position 0x1p-59 1) 1])
    by reflexivity.
  unfold pipeline_points.
  match goal with |- context [all (load ?l)] =>
    assert (Forall BoundingBox l) as Hbox by (by repeat constructor);
    rewrite (proj1 (Permutation_singleton_r _ _) (all_load l Hbox)) end.
  simpl. rewrite app_nil_r.
  match goal with |- context [search ?t ?q] =>
    assert (search t q = []) as ->; [| done] end.
  apply Permutation_nil_r.
  etrans; [apply search_load; [by repeat constructor | by split] |]. by vm_compute.
Qed.

(** ** Exceptions of the pipeline *)

Lemma mapM_Result_app {A B : Type} (g : A -> Result B) (l1 l2 : list A) :
  mapM g (l1 ++ l2) = (ys1 ← mapM g l1; ys2 ← mapM g l2; Ok (ys1 ++ ys2)).
Proof.
  induction l1 as [| a l1 IH]; simpl.
  - by destruct (mapM g l2).
  - destruct (g a); simpl; [| done]. rewrite IH.
    destruct (mapM g l1); simpl; [| done]. by destruct (mapM g l2).
Qed.

Lemma lineTree_load_app (h : heap) (refs1 refs2 : list loc) :
  lineTree_load h (AFeatureCollection (refs1 ++ refs2)) =
  (entries1 ← lineTree_load h (AFeatureCollection refs1);
   entries2 ← lineTree_load h (AFeatureCollection refs2);
   Ok (entries1 ++ entries2)).
Proof.
  rewrite !lineTree_load_spec. simpl. rewrite mapM_Result_app.
  destruct (mapM _ refs1); simpl; [| done]. destruct (mapM _ refs2); simpl; [| done].
  by rewrite concat_app.
Qed.

Lemma lineTree_load_single (h : heap) (l : loc) (f : Feature) :
  h !! l = Some f -> lineTree_load h (AFeature l) = feature_entries f.
Proof.
  intros Hl. rewrite lineTree_load_spec. simpl. unfold deref. rewrite Hl. simpl.
  destruct (feature_entries f); simpl; [| done]. by rewrite app_nil_r.
Qed.

Lemma lineTree_load_features_of (h : heap) (line : GeoJSON loc) :
  lineTree_load h line = lineTree_load h (AFeatureCollection (features_of line)).
Proof. by rewrite !lineTree_load_spec. Qed.

Lemma lineTree_load_bad_leaf (h : heap) (line : GeoJSON loc) (l : loc)
    (f leaf : Feature) :
  allocated h line ->
  l ∈ features_of line -> h !! l = Some f ->
  leaf ∈ leaves f -> geometry_type (geometry leaf) <> "LineString" ->
  lineTree_load h line = Throw InvalidGeometryType.
Proof.
  intros Halloc Hl Hf Hleaf Hne.
  assert (feature_entries f = Throw InvalidGeometryType) as Hbad
    by (apply feature_entries_leaves; eauto).
  destruct (lineTree_load h line) as [entries | e] eqn:Hload.
  - exfalso. rewrite lineTree_load_spec in Hload.
    destruct (mapM _ _) as [ess | e'] eqn:Hm; simpl in Hload; [| done].
    apply mapM_Result_Ok in Hm. apply list_elem_of_lookup in Hl as [i Hi].
    destruct (Forall2_lookup_l _ _ _ i l Hm Hi) as (es & _ & Hes).
    unfold deref in Hes. rewrite Hf in Hes. simpl in Hes. congruence.
  - f_equal. pose proof Hload as Hload'. rewrite lineTree_load_spec in Hload.
    destruct (mapM _ _) as [ess | e'] eqn:Hm; simpl in Hload; [done |].
    injection Hload as <-.
    apply mapM_Result_Throw in Hm as (l' & Hl' & Hthrow).
    destruct (Halloc l' Hl') as [f' Hf']. unfold deref in Hthrow.
    rewrite Hf' in Hthrow. by apply feature_entries_Throw in Hthrow.
Qed.

Lemma intersects_length (line1 line2 : LineStringFeature) :
  (exists e, intersects line1 line2 = Throw e /\ isInvalidSegmentLength e) <->
  length line1 <> 2%nat \/ length line2 <> 2%nat.
Proof.
  unfold intersects. split.
  - intros (e & He & _).
    destruct (Nat.eqb_spec (length line1) 2) as [H1 |]; [| by left].
    destruct (Nat.eqb_spec (length line2) 2) as [H2 |]; [| by right].
    exfalso. simpl in He.
    destruct line1 as [| p1 [| p2 [| ? ?]]]; try done.
    destruct line2 as [| p3 [| p4 [| ? ?]]]; try done.
    destruct (intersects_Ok p1 p2 p3 p4) as [r Hr].
    unfold intersects in Hr. simpl in Hr. congruence.
  - intros Hlen. destruct (Nat.eqb_spec (length line1) 2) as [H1 |]; simpl.
    + destruct (Nat.eqb_spec (length line2) 2) as [H2 |]; simpl.
      * by destruct Hlen.
      * exists InvalidSegmentLength2. split; [done | by right].
    + exists InvalidSegmentLength1. split; [done | by left].
Qed.

Lemma bboxPolygon_Throw (west south east north : float) (e : Error) :
  bboxPolygon west south east north = Throw e -> e = InvalidRingClosure.
Proof.
  unfold bboxPolygon, polygon, ring_check; simpl.
  destruct (_ || _); simpl; congruence.
Qed.

Section Exceptions.
Context {rbush : RBush}.

(** C7: the exact test throws InvalidSegmentLength exactly when one of
    its arguments does not have two coordinates; every segment [lineTree]
    stores has two; so [lineIntersect] never throws InvalidSegmentLength. *)
Theorem lineIntersect_segment_length :
  (forall line1 line2 : LineStringFeature,
     (exists e, intersects line1 line2 = Throw e /\ isInvalidSegmentLength e) <->
     length line1 <> 2%nat \/ length line2 <> 2%nat) /\
  (forall h line entries e,
     lineTree_load h line = Ok entries -> e ∈ entries ->
     length (lineSegment e) = 2%nat) /\
  (forall h line1 line2 debug e,
     fst (lineIntersect line1 line2 debug h) = Throw e ->
     ~ isInvalidSegmentLength e).
Proof.
  split; [exact intersects_length |]. split.
  - intros h line entries e Hload He.
    by destruct (proj2 (lineTree_load_Ok _ _ _ Hload) e He) as (a & b & k & ->).
  - intros h line1 line2 debug e.
    destruct (lineTree_load h line1) as [segments1 | e1] eqn:H1.
    + destruct (lineTree_load h line2) as [segments2 | e2] eqn:H2.
      * rewrite (lineIntersect_Ok h line1 line2 debug segments1 segments2) by done.
        destruct debug; [| done].
        unfold createPolygonsFromTree.
        destruct (mapM _ (all (load segments1))) as [polygons1 | e1] eqn:Hp1; simpl.
        -- destruct (mapM _ (all (load segments2))) as [polygons2 | e2] eqn:Hp2; simpl.
           ++ destruct (targets h _) as [ws [|]]; simpl; [done |].
              by intros [= <-] [? | ?].
           ++ intros [= <-] Hlen.
              apply mapM_Result_Throw in Hp2 as (? & _ & ->%bboxPolygon_Throw).
              by destruct Hlen.
        -- intros [= <-] Hlen.
           apply mapM_Result_Throw in Hp1 as (? & _ & ->%bboxPolygon_Throw).
           by destruct Hlen.
      * rewrite (lineIntersect_Throw2 h line1 line2 debug segments1 e2) by done.
        intros [= <-] Hlen.
        by destruct (lineTree_load_Throw _ _ _ H2) as [-> | ->], Hlen.
    + rewrite (lineIntersect_Throw1 h line1 line2 debug e1) by done.
      intros [= <-] Hlen.
      by destruct (lineTree_load_Throw _ _ _ H1) as [-> | ->], Hlen.
Qed.

(** C6: when every reference of the inputs points to an object and some
    leaf feature, after flattening, is not a LineString, [lineIntersect]
    throws InvalidGeometryType: no collection is returned, and the
    caller's objects are as they were. *)
Theorem lineIntersect_invalid_geometry (h : heap) (line1 line2 : GeoJSON loc)
    (debug : bool) (l : loc) (f leaf : Feature) :
  allocated h line1 -> allocated h line2 ->
  l ∈ features_of line1 ++ features_of line2 ->
  h !! l = Some f -> leaf ∈ leaves f ->
  geometry_type (geometry leaf) <> "LineString" ->
  lineIntersect line1 line2 debug h = (Throw InvalidGeometryType, h).
Proof.
  intros Ha1 Ha2 Hl Hf Hleaf Hne.
  destruct (lineTree_load h line1) as [segments1 | e1] eqn:H1.
  - apply (lineIntersect_Throw2 h line1 line2 debug segments1); [done |].
    apply elem_of_app in Hl as [Hl | Hl].
    + by rewrite (lineTree_load_bad_leaf h line1 l f leaf) in H1.
    + by apply (lineTree_load_bad_leaf h line2 l f leaf).
  - apply lineIntersect_Throw1.
    destruct (lineTree_load_Throw _ _ _ H1) as [-> | ->]; [| done].
    exfalso. rewrite lineTree_load_spec in H1.
    destruct (mapM _ _) as [ess | e'] eqn:Hm; simpl in H1; [done |].
    injection H1 as ->.
    apply mapM_Result_Throw in Hm as (l' & Hl' & Hthrow).
    destruct (Ha1 l' Hl') as [f' Hf']. unfold deref in Hthrow.
    rewrite Hf' in Hthrow. by apply feature_entries_Throw in Hthrow.
Qed.

End Exceptions.

(** A one-point line makes the test throw; a LineString through the
    extractor gives two-point segments, and the operation returns. *)
Lemma lineIntersect_segment_length_witness :
  (exists e, intersects [position 0 0] [position 0 0; position 1 1] = Throw e /\
     isInvalidSegmentLength e) /\
  ~ isInvalidSegmentLength InvalidGeometryType.
Proof.
  destruct (@lineIntersect_segment_length scan) as (Hiff & _ & Hnever). split.
  - apply Hiff. left. simpl. lia.
  - apply (Hnever
      {[1%positive := {| geometry := Point (position 0 0); properties := Own ∅ |}]}
      (AFeature 1%positive) (AFeature 1%positive) false InvalidGeometryType).
    reflexivity.
Defined.

(** A Polygon as second input, in either mode. *)
Lemma lineIntersect_invalid_geometry_witness :
  let square := [position 0 0; position 1 0; position 1 1; position 0 0] in
  let h : heap :=
    {[1%positive := {| geometry := LineString [position 0 0; position 2 2];
                       properties := Own ∅ |};
      2%positive := {| geometry := Polygon [square]; properties := Own ∅ |}]} in
  lineIntersect (rbush := scan) (AFeature 1%positive) (AFeature 2%positive) true h
  = (Throw InvalidGeometryType, h).
Proof.
  intros square h.
  apply (lineIntersect_invalid_geometry (rbush := scan) h
           (AFeature 1%positive) (AFeature 2%positive) true 2%positive
           {| geometry := Polygon [square]; properties := Own ∅ |}
           {| geometry := Polygon [square]; properties := Own ∅ |}).
  - intros l ->%list_elem_of_singleton. by eexists.
  - intros l ->%list_elem_of_singleton. by eexists.
  - simpl. apply elem_of_cons. right. apply list_elem_of_here.
  - reflexivity.
  - apply list_elem_of_here.
  - discriminate.
Defined.


(** ** MultiLineString input *)

Section MultiLine.
Context {rbush : RBush}.

Lemma pipeline_empty (segments : list Entry) :
  pipeline_points [] segments = [] /\ pipeline_points segments [] = [].
Proof.
  unfold pipeline_points. split.
  - assert (all (load []) = []) as ->; [| done].
    apply elem_of_nil_inv. intros e He%all_stored. by apply elem_of_nil in He.
  - apply elem_of_nil_inv. intros p (e1 & (e2 & _ & He2%search_stored)%list_elem_of_bind
                                      & _)%list_elem_of_bind.
    by apply elem_of_nil in He2.
Qed.

(** C5, as the code has it: no segment is extracted from a
    MultiLineString feature. [lineTree] hands the collection [flatten]
    returns to [helpers.featureCollection] once more, the inner
    [featureEach] finds no array under [features], and its callback never
    runs. The load holds nothing for the feature, alone or inside a
    collection, [lineIntersect] returns and finds no point on it, whereas
    section 4.1 asks for the segments of its parts, which exist as soon as
    a part has two vertices. *)
Theorem lineTree_load_MultiLineString (h : heap) (l : loc) (f : Feature)
    (parts : list (list Position)) :
  h !! l = Some f -> geometry f = MultiLineString parts ->
  lineTree_load h (AFeature l) = Ok [] /\
  (forall before after,
     lineTree_load h (AFeatureCollection (before ++ l :: after))
     = lineTree_load h (AFeatureCollection (before ++ after))) /\
  (forall line others,
     lineTree_load h line = Ok others ->
     lineIntersect (AFeature l) line false h = (Ok (featureCollection []), h) /\
     lineIntersect line (AFeature l) false h = (Ok (featureCollection []), h)) /\
  (forall cs, cs ∈ parts -> (2 <= length cs)%nat -> parts_entries parts <> []).
Proof.
  intros Hl Hg.
  assert (lineTree_load h (AFeature l) = Ok []) as Hload.
  { rewrite (lineTree_load_single h l f Hl). unfold feature_entries. by rewrite Hg. }
  split; [done |]. split; [| split].
  - intros before after.
    rewrite !lineTree_load_app. change (l :: after) with ([l] ++ after).
    rewrite lineTree_load_app.
    rewrite (lineTree_load_features_of h (AFeature l)) in Hload. simpl in Hload.
    rewrite Hload.
    destruct (lineTree_load h (AFeatureCollection before)); simpl; [| done].
    by destruct (lineTree_load h (AFeatureCollection after)).
  - intros line others Hothers.
    rewrite (lineIntersect_Ok h (AFeature l) line false [] others) by done.
    rewrite (lineIntersect_Ok h line (AFeature l) false others []) by done.
    by destruct (pipeline_empty others) as [-> ->].
  - intros cs Hcs Hlen Hnil.
    assert (line_entries cs = []) as Hempty.
    { apply elem_of_nil_inv. intros e He.
      assert (e ∈ parts_entries parts) as Hin.
      { apply elem_of_concat. exists (line_entries cs).
        split; [done |]. apply list_elem_of_fmap. by exists cs. }
      rewrite Hnil in Hin. by apply elem_of_nil in Hin. }
    pose proof (line_entries_length cs) as Hn. rewrite Hempty in Hn. simpl in Hn. lia.
Qed.

End MultiLine.

(** A one-part MultiLineString across a LineString: no segment, no
    point; its part as a LineString gives the point [(1,1)]. *)
Lemma lineTree_load_MultiLineString_witness :
  let part := [position 0 0; position 2 2] in
  let h : heap :=
    {[1%positive := {| geometry := MultiLineString [part]; properties := Own ∅ |};
      2%positive := {| geometry := LineString [position 0 2; position 2 0];
                       properties := Own ∅ |};
      3%positive := {| geometry := LineString part; properties := Own ∅ |}]} in
  lineTree_load h (AFeature 1%positive) = Ok [] /\
  lineIntersect (rbush := scan) (AFeature 1%positive) (AFeature 2%positive) false h
  = (Ok (featureCollection []), h) /\
  length (parts_entries [part]) = 1%nat /\
  lineIntersect (rbush := scan) (AFeature 3%positive) (AFeature 2%positive) false h
  = (Ok (featureCollection [Fresh (point (position 1 1))]), h).
Proof.
  intros part h.
  destruct (lineTree_load_MultiLineString (rbush := scan) h 1%positive
              {| geometry := MultiLineString [part]; properties := Own ∅ |}
              [part] eq_refl eq_refl) as (Hload & _ & Hrun & _).
  split; [exact Hload |].
  split; [| split; reflexivity].
  exact (proj1 (Hrun (AFeature 2%positive)
                  [segment_entry (position 0 2) (position 2 0) 1] eq_refl)).
Defined.

(** ** Debug mode and the caller's objects *)

Lemma intersects_point (line1 line2 : LineStringFeature) (q : Feature) :
  intersects line1 line2 = Ok (Some q) -> exists c, q = point c.
Proof.
  unfold intersects.
  destruct (negb _); [done |]. destruct (negb _); [done |].
  destruct line1 as [| p1 [| p2 [| ? ?]]]; try done.
  destruct line2 as [| p3 [| p4 [| ? ?]]]; try done.
  destruct (_ =? 0); [by destruct (_ && _) |].
  destruct (_ && _ && _ && _); [| done]. intros [= <-]. by eexists.
Qed.

Lemma mapM_Result_ext {A B : Type} (g g' : A -> Result B) (l : list A) :
  (forall a, a ∈ l -> g a = g' a) -> mapM g l = mapM g' l.
Proof.
  induction l as [| a l IH]; intros Hext; simpl; [done |].
  rewrite (Hext a) by left. rewrite IH; [done |]. intros; apply Hext; by right.
Qed.

Lemma lineTree_load_agree (h h' : heap) (line : GeoJSON loc) :
  (forall l, l ∈ features_of line -> geometry <$> h' !! l = geometry <$> h !! l) ->
  lineTree_load h' line = lineTree_load h line.
Proof.
  intros Hgeom. rewrite !lineTree_load_spec. f_equal.
  apply mapM_Result_ext. intros l Hl. unfold deref. specialize (Hgeom l Hl).
  destruct (h' !! l) as [f' |], (h !! l) as [f |]; simpl in *; try done.
  unfold feature_entries. by injection Hgeom as ->.
Qed.

Lemma targets_true (h : heap) (refs : list (loc * string))
    (ws : list (PropsId * string)) :
  targets h refs = (ws, true) <->
  Forall2 (fun r w => props_id h r.1 = Some w.1 /\ w.2 = r.2) refs ws.
Proof.
  revert ws. induction refs as [| [l c] refs IH]; intros ws; simpl.
  - split; [intros [= <-]; constructor | by inversion 1].
  - destruct (props_id h l) as [id |] eqn:Hid.
    + destruct (targets h refs) as [ws' ok]. split.
      * intros [= <- ->]. constructor; [done | by apply IH].
      * inversion 1 as [| ? [id' c'] ? ws'' [Hw1 Hw2] Hrest]; subst. simpl in *. subst.
        apply IH in Hrest. injection Hrest as <- ->.
        rewrite Hid in Hw1. by injection Hw1 as <-.
    + split; [done |]. inversion 1 as [| ? ? ? ? [Hw _]]. simpl in Hw. congruence.
Qed.

Lemma targets_false (h : heap) (refs : list (loc * string))
    (ws : list (PropsId * string)) :
  targets h refs = (ws, false) -> exists r, r ∈ refs /\ props_id h r.1 = None.
Proof.
  revert ws. induction refs as [| [l c] refs IH]; intros ws; simpl; [done |].
  destruct (props_id h l) as [id |] eqn:Hid.
  - destruct (targets h refs) as [ws' ok]. intros [= <- ->].
    destruct (IH ws') as (r & ? & ?); [done |]. exists r. split; [by right | done].
  - intros _. exists (l, c). split; [by left | done].
Qed.

Lemma last_stroke_app (id : PropsId) (ws1 ws2 : list (PropsId * string)) :
  last_stroke id (ws1 ++ ws2)
  = match last_stroke id ws2 with
    | Some c => Some c
    | None => last_stroke id ws1
    end.
Proof.
  induction ws1 as [| [id1 c1] ws1 IH]; simpl.
  - by destruct (last_stroke id ws2).
  - rewrite IH. by destruct (last_stroke id ws2).
Qed.

Lemma last_stroke_const (id : PropsId) (c : string) (ws : list (PropsId * string)) :
  Forall (fun w => w.2 = c) ws ->
  last_stroke id ws = if decide (id ∈ ws.*1) then Some c else None.
Proof.
  induction ws as [| [id1 c1] ws IH]; intros Hc.
  - rewrite decide_False; [done |]. apply not_elem_of_nil.
  - inversion Hc as [| ? ? Hc1 Hrest]; subst. cbn [last_stroke].
    rewrite IH, fmap_cons by done. cbn [fst snd].
    destruct (decide (id ∈ ws.*1)) as [Hin | Hnin].
    + by rewrite decide_True by (by right).
    + destruct (decide (id = id1)) as [-> | Hne].
      * by rewrite decide_True by (by left).
      * rewrite decide_False; [done |]. by intros [? | ?]%elem_of_cons.
Qed.

Lemma props_at_paints (id : PropsId) (ws : list (PropsId * string)) (h : heap) :
  props_at (paints ws h) id
  = match last_stroke id ws with
    | Some c => colour c <$> props_at h id
    | None => props_at h id
    end.
Proof.
  revert h. induction ws as [| [id1 c1] ws IH]; intros h; [done |].
  change (paints ((id1, c1) :: ws) h) with (paints ws (write id1 (colour c1) h)).
  rewrite IH, props_at_write. simpl.
  destruct (last_stroke id ws) as [c |], (decide (id = id1)) as [-> | Hne];
    try done.
  destruct (props_at h id1); simpl; [| done]. by rewrite colour_colour.
Qed.

Lemma props_id_is_Some (h : heap) (l : loc) (id : PropsId) :
  props_id h l = Some id -> is_Some (props_at h id).
Proof.
  unfold props_id, props_at. destruct (h !! l) as [f |] eqn:Hl; [| done].
  destruct (properties f) as [m | p |] eqn:Hp; [| | done].
  - intros [= <-]. rewrite Hl, Hp. by eexists.
  - destruct (shared h !! p) as [m |] eqn:Hm; [| done]. intros [= <-]. by eexists.
Qed.

Lemma targets_ids (h : heap) (c : string) (ls : list loc)
    (ws : list (PropsId * string)) :
  Forall2 (fun r w => props_id h r.1 = Some w.1 /\ w.2 = r.2)
    (map (fun l => (l, c)) ls) ws ->
  Forall (fun w => w.2 = c) ws /\ props_id h <$> ls = Some <$> ws.*1.
Proof.
  revert ws. induction ls as [| l ls IH]; intros ws; simpl.
  - inversion 1. by split.
  - inversion 1 as [| ? [id c'] ? ws' [Hid Hc] Hrest]; subst. simpl in *.
    destruct (IH ws' Hrest) as [Hcs Hids]. split; [by constructor |].
    simpl. f_equal; [done | exact Hids].
Qed.

Lemma debug_colours (h : heap) (line1 line2 : GeoJSON loc)
    (ws : list (PropsId * string)) :
  targets h (strokes line1 line2) = (ws, true) ->
  (forall l, l ∈ features_of line1 ++ features_of line2 ->
     exists members,
       props_of h l = Some members /\
       props_of (paints ws h) l
       = Some (colour (if decide (props_id h l ∈ props_id h <$> features_of line2)
                       then "#00f" else "#f00") members)) /\
  (forall id,
     (forall l, l ∈ features_of line1 ++ features_of line2 -> props_id h l <> Some id) ->
     props_at (paints ws h) id = props_at h id).
Proof.
  intros Hok%targets_true. unfold strokes in Hok.
  apply Forall2_app_inv_l in Hok as (ws1 & ws2 & Hok1 & Hok2 & ->).
  destruct (targets_ids _ _ _ _ Hok1) as [Hc1 Hids1].
  destruct (targets_ids _ _ _ _ Hok2) as [Hc2 Hids2].
  assert (forall id, Some id ∈ props_id h <$> features_of line1 <-> id ∈ ws1.*1) as Hin1.
  { intros id. rewrite Hids1, list_elem_of_fmap. split.
    - by intros (id' & [= ->] & ?).
    - intros ?. by exists id. }
  assert (forall id, Some id ∈ props_id h <$> features_of line2 <-> id ∈ ws2.*1) as Hin2.
  { intros id. rewrite Hids2, list_elem_of_fmap. split.
    - by intros (id' & [= ->] & ?).
    - intros ?. by exists id. }
  split.
  - intros l Hl.
    assert (exists id, props_id h l = Some id /\ (id ∈ ws1.*1 \/ id ∈ ws2.*1))
      as (id & Hid & Hws).
    { apply elem_of_app in Hl as [Hl | Hl].
      - assert (props_id h l ∈ props_id h <$> features_of line1) as Hmem
          by (apply list_elem_of_fmap; by exists l).
        rewrite Hids1 in Hmem. apply list_elem_of_fmap in Hmem as (id & Hid & Hmem).
        exists id. split; [done | by left].
      - assert (props_id h l ∈ props_id h <$> features_of line2) as Hmem
          by (apply list_elem_of_fmap; by exists l).
        rewrite Hids2 in Hmem. apply list_elem_of_fmap in Hmem as (id & Hid & Hmem).
        exists id. split; [done | by right]. }
    destruct (props_id_is_Some _ _ _ Hid) as [members Hm]. exists members.
    unfold props_of. rewrite props_id_paints, Hid. simpl.
    split; [done |].
    rewrite props_at_paints, last_stroke_app.
    rewrite (last_stroke_const id "#00f" ws2), (last_stroke_const id "#f00" ws1) by done.
    destruct (decide (Some id ∈ props_id h <$> features_of line2)) as [H2 | H2].
    + rewrite decide_True by (by apply Hin2). by rewrite Hm.
    + rewrite decide_False by (by rewrite <- Hin2).
      destruct Hws as [Hws | Hws]; [| by apply Hin2 in Hws].
      rewrite decide_True by done. by rewrite Hm.
  - intros id Hid.
    rewrite props_at_paints, last_stroke_app.
    rewrite (last_stroke_const id "#00f" ws2), (last_stroke_const id "#f00" ws1) by done.
    rewrite !decide_False; [done | |].
    + intros (l & Hl & Hmem)%Hin1%list_elem_of_fmap.
      apply (Hid l); [apply elem_of_app; by left | done].
    + intros (l & Hl & Hmem)%Hin2%list_elem_of_fmap.
      apply (Hid l); [apply elem_of_app; by right | done].
Qed.

Lemma targets_writable (h : heap) (line1 line2 : GeoJSON loc) :
  writable h line1 -> writable h line2 ->
  exists ws, targets h (strokes line1 line2) = (ws, true).
Proof.
  intros Hw1 Hw2. destruct (targets h (strokes line1 line2)) as [ws [|]] eqn:Ht;
    [by eauto |].
  apply targets_false in Ht as ([l c] & Hr & Hnone). simpl in Hnone.
  unfold strokes in Hr. exfalso.
  apply elem_of_app in Hr as [Hr | Hr];
    apply list_elem_of_fmap in Hr as (l' & [= -> _] & Hl').
  - destruct (Hw1 l' Hl') as [? ?]. congruence.
  - destruct (Hw2 l' Hl') as [? ?]. congruence.
Qed.

Lemma colour_lookup (c : string) (members : gmap string JSValue) :
  colour c members !! "stroke" = Some (JSString c) /\
  colour c members !! "stroke-width" = Some (JSNumber 6) /\
  forall k, k <> "stroke" -> k <> "stroke-width" -> colour c members !! k = members !! k.
Proof.
  unfold colour. split; [by rewrite lookup_insert_ne, lookup_insert_eq |].
  split; [by rewrite lookup_insert_eq |].
  intros k H1 H2. by rewrite !lookup_insert_ne.
Qed.

Section Debug.
Context {rbush : RBush}.

Lemma lineIntersect_Ok_inv (h h' : heap) (line1 line2 : GeoJSON loc) (debug : bool)
    (r : GeoJSON Item) :
  lineIntersect line1 line2 debug h = (Ok r, h') ->
  exists segments1 segments2,
    lineTree_load h line1 = Ok segments1 /\ lineTree_load h line2 = Ok segments2.
Proof.
  destruct (lineTree_load h line1) as [segments1 | e1] eqn:H1.
  - destruct (lineTree_load h line2) as [segments2 | e2] eqn:H2; [by eauto |].
    by rewrite (lineIntersect_Throw2 h line1 line2 debug segments1 e2).
  - by rewrite (lineIntersect_Throw1 h line1 line2 debug e1).
Qed.

Lemma pipeline_points_fresh (segments1 segments2 : list Entry) (p : Item) :
  p ∈ pipeline_points segments1 segments2 -> exists c, p = Fresh (point c).
Proof.
  intros (e1 & e2 & q & _ & _ & Hq & ->)%pipeline_points_stored.
  apply intersects_point in Hq as [c ->]. by exists c.
Qed.

(** C8, as amended: when the boxes of all segments are BoundingBoxes and
    every feature of the inputs holds a properties object, debug mode
    leaves the points and their order as they are and only appends
    records after them: a polygon for each box of the first tree, for each
    box of the second, the feature objects of the first input, those of
    the second. After the call the features of the second input carry
    colour B, and those of the first input carry colour A unless their
    properties object is that of a feature of the second input. Without
    debug the output holds the points only and nothing is written. *)
Theorem lineIntersect_debug_appends (h : heap) (line1 line2 : GeoJSON loc)
    (segments1 segments2 : list Entry) :
  lineTree_load h line1 = Ok segments1 ->
  lineTree_load h line2 = Ok segments2 ->
  Forall BoundingBox segments1 -> Forall BoundingBox segments2 ->
  writable h line1 -> writable h line2 ->
  exists points polygons1 polygons2 h1,
    lineIntersect line1 line2 false h = (Ok (featureCollection points), h) /\
    (forall p, p ∈ points -> exists c, p = Fresh (point c)) /\
    createPolygonsFromTree (load segments1) = Ok polygons1 /\
    createPolygonsFromTree (load segments2) = Ok polygons2 /\
    polygons1 ≡ₚ box_polygon <$> segments1 /\
    polygons2 ≡ₚ box_polygon <$> segments2 /\
    lineIntersect line1 line2 true h
    = (Ok (featureCollection
             (points ++
              map Fresh polygons1 ++
              map Fresh polygons2 ++
              map Input (features_of line1) ++
              map Input (features_of line2))), h1) /\
    (forall l, l ∈ features_of line1 ++ features_of line2 ->
       exists members,
         props_of h1 l = Some members /\
         members !! "stroke-width" = Some (JSNumber 6) /\
         members !! "stroke"
         = Some (JSString
                   (if decide (props_id h l ∈ props_id h <$> features_of line2)
                    then "#00f" else "#f00"))) /\
    (forall l, l ∈ features_of line2 ->
       exists members,
         props_of h1 l = Some members /\
         members !! "stroke" = Some (JSString "#00f")).
Proof.
  intros H1 H2 Hb1 Hb2 Hw1 Hw2.
  destruct (targets_writable h line1 line2 Hw1 Hw2) as [ws Hws].
  destruct (debug_colours h line1 line2 ws Hws) as [Hcol _].
  exists (pipeline_points segments1 segments2),
    (box_polygon <$> all (load segments1)), (box_polygon <$> all (load segments2)),
    (paints ws h).
  rewrite !(lineIntersect_Ok h line1 line2 _ segments1 segments2) by done.
  rewrite !createPolygonsFromTree_Ok by done. rewrite Hws.
  split; [done |]. split; [apply pipeline_points_fresh |].
  split; [done |]. split; [done |].
  split; [by rewrite all_load |]. split; [by rewrite all_load |].
  split; [done |].
  assert (forall l, l ∈ features_of line1 ++ features_of line2 ->
    exists members,
      props_of (paints ws h) l = Some members /\
      members !! "stroke-width" = Some (JSNumber 6) /\
      members !! "stroke"
      = Some (JSString
                (if decide (props_id h l ∈ props_id h <$> features_of line2)
                 then "#00f" else "#f00"))) as Hall.
  { intros l Hl. destruct (Hcol l Hl) as (m & _ & Hm). eexists. split; [exact Hm |].
    destruct (colour_lookup
      (if decide (props_id h l ∈ props_id h <$> features_of line2)
       then "#00f" else "#f00") m) as (? & ? & _). by split. }
  split; [exact Hall |].
  intros l Hl. destruct (Hall l) as (m & Hm & _ & Hs); [apply elem_of_app; by right |].
  exists m. split; [done |].
  rewrite decide_True in Hs; [done |]. apply list_elem_of_fmap. by exists l.
Qed.

(** C9: a second call on the same arguments, with the caller's objects as
    the first call left them, returns the same collection (same records,
    same order) and leaves the objects as they are; without debug a call
    writes to no object at all. The outcome is a function of the arguments
    and of the objects they refer to: nothing else is read or kept. *)
Theorem lineIntersect_twice (h : heap) (line1 line2 : GeoJSON loc) (debug : bool) :
  lineIntersect line1 line2 debug (snd (lineIntersect line1 line2 debug h))
  = lineIntersect line1 line2 debug h /\
  snd (lineIntersect line1 line2 false h) = h.
Proof.
  split; [| destruct (lineTree_load h line1) as [segments1 | e1] eqn:H1;
            [destruct (lineTree_load h line2) as [segments2 | e2] eqn:H2 |];
            [by rewrite (lineIntersect_Ok h line1 line2 false segments1 segments2)
            |by rewrite (lineIntersect_Throw2 h line1 line2 false segments1 e2)
            |by rewrite (lineIntersect_Throw1 h line1 line2 false e1)] ].
  destruct (lineTree_load h line1) as [segments1 | e1] eqn:H1.
  - destruct (lineTree_load h line2) as [segments2 | e2] eqn:H2.
    + rewrite (lineIntersect_Ok h line1 line2 debug segments1 segments2) by done.
      destruct debug; simpl;
        [| by rewrite (lineIntersect_Ok h line1 line2 false segments1 segments2)].
      destruct (createPolygonsFromTree (load segments1)) as [polygons1 | e] eqn:Hp1;
        simpl.
      2: { rewrite (lineIntersect_Ok h line1 line2 true segments1 segments2) by done.
           by rewrite Hp1. }
      destruct (createPolygonsFromTree (load segments2)) as [polygons2 | e] eqn:Hp2;
        simpl.
      2: { rewrite (lineIntersect_Ok h line1 line2 true segments1 segments2) by done.
           by rewrite Hp1, Hp2. }
      destruct (targets h (strokes line1 line2)) as [ws ok] eqn:Hws. simpl.
      rewrite (lineIntersect_Ok _ line1 line2 true segments1 segments2).
      * rewrite Hp1, Hp2.
        rewrite (targets_ext h) by (intros; apply props_id_paints).
        by rewrite Hws, paints_idem.
      * rewrite <- H1. apply lineTree_load_agree. intros; apply geometry_paints.
      * rewrite <- H2. apply lineTree_load_agree. intros; apply geometry_paints.
    + rewrite (lineIntersect_Throw2 h line1 line2 debug segments1 e2) by done.
      simpl. by apply (lineIntersect_Throw2 h line1 line2 debug segments1 e2).
  - rewrite (lineIntersect_Throw1 h line1 line2 debug e1) by done.
    simpl. by apply lineIntersect_Throw1.
Qed.

(** C10: a debug call that returns has written ['stroke'] and
    ['stroke-width'] into the properties object of every feature of both
    inputs, and the returned collection holds those feature objects
    themselves: ['stroke-width'] is 6 and ['stroke'] is the colour of the
    input painted last through that properties object. The other members
    of the object, the geometry of every feature and the properties
    objects no feature of the inputs holds are as they were. *)
Theorem lineIntersect_debug_mutates (h h' : heap) (line1 line2 : GeoJSON loc)
    (items : list Item) :
  lineIntersect line1 line2 true h = (Ok (featureCollection items), h') ->
  (forall l, l ∈ features_of line1 ++ features_of line2 ->
     Input l ∈ items /\
     exists f f' members members',
       h !! l = Some f /\ h' !! l = Some f' /\ geometry f' = geometry f /\
       props_of h l = Some members /\ props_of h' l = Some members' /\
       members' !! "stroke-width" = Some (JSNumber 6) /\
       members' !! "stroke"
       = Some (JSString
                 (if decide (props_id h l ∈ props_id h <$> features_of line2)
                  then "#00f" else "#f00")) /\
       forall k, k <> "stroke" -> k <> "stroke-width" ->
         members' !! k = members !! k) /\
  (forall l, geometry <$> h' !! l = geometry <$> h !! l) /\
  (forall id,
     (forall l, l ∈ features_of line1 ++ features_of line2 -> props_id h l <> Some id) ->
     props_at h' id = props_at h id).
Proof.
  intros Hrun.
  destruct (lineIntersect_Ok_inv _ _ _ _ _ _ Hrun) as (segments1 & segments2 & H1 & H2).
  rewrite (lineIntersect_Ok h line1 line2 true segments1 segments2) in Hrun by done.
  destruct (createPolygonsFromTree (load segments1)) as [polygons1 |]; [| done].
  destruct (createPolygonsFromTree (load segments2)) as [polygons2 |]; [| done].
  destruct (targets h (strokes line1 line2)) as [ws [|]] eqn:Hws; [| done].
  injection Hrun as <- <-.
  destruct (debug_colours h line1 line2 ws Hws) as [Hcol Hframe].
  destruct (lineTree_load_Ok _ _ _ H1) as [Ha1 _].
  destruct (lineTree_load_Ok _ _ _ H2) as [Ha2 _].
  split; [| split; [intros; apply geometry_paints | exact Hframe]].
  intros l Hl. split.
  - unfold debug_records. do 3 (apply elem_of_app; right).
    apply elem_of_app.
    apply elem_of_app in Hl as [Hl | Hl]; [left | right];
      apply list_elem_of_fmap; by exists l.
  - assert (is_Some (h !! l)) as [f Hf]
      by (apply elem_of_app in Hl as [Hl | Hl]; [by apply Ha1 | by apply Ha2]).
    pose proof (geometry_paints ws h l) as Hgeom. rewrite Hf in Hgeom.
    destruct (paints ws h !! l) as [f' |] eqn:Hf'; [| done].
    destruct (Hcol l Hl) as (m & Hm & Hm').
    exists f, f', m. eexists.
    split; [done |]. split; [done |]. split; [by injection Hgeom |].
    split; [done |]. split; [exact Hm' |].
    destruct (colour_lookup
      (if decide (props_id h l ∈ props_id h <$> features_of line2)
       then "#00f" else "#f00") m) as (? & ? & ?). by repeat split.
Qed.

End Debug.

Lemma lineIntersect_debug_appends_witness :
  let line1 := AFeature 1%positive in
  let line2 := AFeature 2%positive in
  exists points polygons1 polygons2 h1,
    lineIntersect (rbush := scan) line1 line2 false example_heap
    = (Ok (featureCollection points), example_heap) /\
    lineIntersect (rbush := scan) line1 line2 true example_heap
    = (Ok (featureCollection
             (points ++
              map Fresh polygons1 ++
              map Fresh polygons2 ++
              map Input (features_of line1) ++
              map Input (features_of line2))), h1) /\
    (exists members,
       props_of h1 1%positive = Some members /\
       members !! "stroke" = Some (JSString "#f00")) /\
    (exists members,
       props_of h1 2%positive = Some members /\
       members !! "stroke" = Some (JSString "#00f")).
Proof.
  intros line1 line2.
  destruct (lineIntersect_debug_appends (rbush := scan) example_heap line1 line2
              (match lineTree_load example_heap line1 with Ok s => s | Throw _ => [] end)
              (match lineTree_load example_heap line2 with Ok s => s | Throw _ => [] end)
              eq_refl eq_refl)
    as (points & polygons1 & polygons2 & h1 & Hp & _ & _ & _ & _ & _ & Hd & Hc & _).
  { vm_compute. by repeat constructor. }
  { vm_compute. by repeat constructor. }
  { intros l ->%list_elem_of_singleton. by eexists. }
  { intros l ->%list_elem_of_singleton. by eexists. }
  exists points, polygons1, polygons2, h1.
  split; [exact Hp |]. split; [exact Hd |]. split.
  - destruct (Hc 1%positive) as (m & Hm & _ & Hs); [apply list_elem_of_here |].
    exists m. split; [exact Hm | exact Hs].
  - destruct (Hc 2%positive) as (m & Hm & _ & Hs).
    { apply elem_of_cons. right. apply list_elem_of_here. }
    exists m. split; [exact Hm | exact Hs].
Defined.

(** Where debug mode differs from the claim. The same object as both
    inputs is in the output as a feature of the first input and carries
    colour B. So does a feature of the first input that holds the
    properties object of a feature of the second. With a feature whose
    [properties] is null, and with a NaN vertex, the call without debug
    returns the point and the debug call throws: a [TypeError] after the
    first input was coloured, and the exception of [helpers.polygon]. *)
Lemma lineIntersect_debug_differs :
  let line1 := AFeature 1%positive in
  let line2 := AFeature 2%positive in
  let cross1 := LineString [position 0 0; position 2 2] in
  let cross2 := LineString [position 0 2; position 2 0] in
  let h_shared : heap :=
    {| features := {[1%positive := {| geometry := cross1; properties := Shared 7%positive |};
                     2%positive := {| geometry := cross2; properties := Shared 7%positive |}]};
       shared := {[7%positive := ∅]} |} in
  let h_null : heap :=
    {[1%positive := {| geometry := cross1; properties := Own ∅ |};
      2%positive := {| geometry := cross2; properties := Null |}]} in
  let h_nan : heap :=
    {[1%positive := {| geometry := LineString [position 0 0; position 2 2; position nan 0];
                       properties := Own ∅ |};
      2%positive := {| geometry := cross2; properties := Own ∅ |}]} in
  let same := lineIntersect (rbush := scan) line1 line1 true example_heap in
  let both := lineIntersect (rbush := scan) line1 line2 true h_shared in
  let null := lineIntersect (rbush := scan) line1 line2 true h_null in
  ((exists front,
      fst same = Ok (featureCollection (front ++ [Input 1%positive; Input 1%positive]))) /\
   (exists members,
      props_of (snd same) 1%positive = Some members /\
      members !! "stroke" = Some (JSString "#00f"))) /\
  ((exists front,
      fst both = Ok (featureCollection (front ++ [Input 1%positive; Input 2%positive]))) /\
   (exists members,
      props_of (snd both) 1%positive = Some members /\
      members !! "stroke" = Some (JSString "#00f"))) /\
  (fst (lineIntersect (rbush := scan) line1 line2 false h_null)
   = Ok (featureCollection [Fresh (point (position 1 1))]) /\
   fst null = Throw TypeError /\
   (exists members,
      props_of (snd null) 1%positive = Some members /\
      members !! "stroke" = Some (JSString "#f00"))) /\
  (lineIntersect (rbush := scan) line1 line2 false h_nan
   = (Ok (featureCollection [Fresh (point (position 1 1))]), h_nan) /\
   lineIntersect (rbush := scan) line1 line2 true h_nan
   = (Throw InvalidRingClosure, h_nan)).
Proof.
  intros line1 line2 cross1 cross2 h_shared h_null h_nan same both null.
  split; [| split; [| split]].
  - split.
    + exists (take 6 (match fst same with
                      | Ok (AFeatureCollection items) => items
                      | _ => []
                      end)).
      vm_compute. reflexivity.
    + exists (colour "#00f" ∅). split; [vm_compute; reflexivity | reflexivity].
  - split.
    + exists (take 3 (match fst both with
                      | Ok (AFeatureCollection items) => items
                      | _ => []
                      end)).
      vm_compute. reflexivity.
    + exists (colour "#00f" ∅). split; [vm_compute; reflexivity | reflexivity].
  - split; [vm_compute; reflexivity |]. split; [vm_compute; reflexivity |].
    exists (colour "#f00" ∅). split; [vm_compute; reflexivity | reflexivity].
  - split; vm_compute; reflexivity.
Qed.

(** Two features that hold the same properties object: both are in the
    output, and the one object carries the colour of the second input and
    its other member. *)
Lemma lineIntersect_debug_mutates_witness :
  let line1 := AFeature 1%positive in
  let line2 := AFeature 2%positive in
  let h : heap :=
    {| features :=
         {[1%positive := {| geometry := LineString [position 0 0; position 2 2];
                            properties := Shared 7%positive |};
           2%positive := {| geometry := LineString [position 0 2; position 2 0];
                            properties := Shared 7%positive |}]};
       shared := {[7%positive := {["name" := JSString "both"]}]} |} in
  let run := lineIntersect (rbush := scan) line1 line2 true h in
  let items := match fst run with Ok (AFeatureCollection items) => items | _ => [] end in
  (Input 1%positive ∈ items /\ Input 2%positive ∈ items) /\
  exists members1 members2,
    props_of (snd run) 1%positive = Some members1 /\
    props_of (snd run) 2%positive = Some members2 /\
    members1 !! "stroke" = Some (JSString "#00f") /\
    members2 !! "stroke" = Some (JSString "#00f") /\
    members2 !! "stroke-width" = Some (JSNumber 6) /\
    members2 !! "name" = Some (JSString "both").
Proof.
  intros line1 line2 h run items.
  destruct (lineIntersect_debug_mutates (rbush := scan) h (snd run)
              line1 line2 items eq_refl) as (Hrefs & _ & _).
  destruct (Hrefs 1%positive)
    as (Hin1 & f1 & f1' & m1 & m1' & _ & _ & _ & _ & Hm1 & _ & Hs1 & _).
  { apply list_elem_of_here. }
  destruct (Hrefs 2%positive)
    as (Hin2 & f2 & f2' & m2 & m2' & _ & _ & _ & Hm2 & Hm2' & Hw2 & Hs2 & Hk2).
  { apply elem_of_cons. right. apply list_elem_of_here. }
  split; [by split |]. exists m1', m2'.
  split; [exact Hm1 |]. split; [exact Hm2' |]. split; [exact Hs1 |].
  split; [exact Hs2 |]. split; [exact Hw2 |].
  rewrite Hk2 by discriminate. injection Hm2 as <-. reflexivity.
Defined.

(** ** Further properties of the code *)

(** *** Swapping the two segments

    Swapping the roles of the two segments negates [denom] and both
    numerators and exchanges [uA] with [uB]: the quotients are the same
    numbers, so the two range tests of [intersects] pass in one order
    exactly when they pass in the other. Opposites are taken up to the
    sign of a zero, which no comparison of the code sees. *)

Lemma binary_normalize_opp (m e : Z) :
  SFneg (binary_normalize prec emax m e false) (binary_normalize prec emax (- m) e false).
Proof.
  destruct m as [| p | p]; simpl; [done |..].
  all: unfold SFneg, binary_round, binary_round_aux.
  all: destruct (shl_align _ _ _) as [mz ez].
  all: destruct (shr_fexp _ _ _ _ _) as [mrs' e'].
  all: destruct (shr_fexp _ _ _ _ _) as [mrs'' e''].
  all: destruct (shr_m mrs''); simpl; try done.
  all: by destruct (_ <=? _)%Z.
Qed.

Lemma SFsub_swap (x y : spec_float) :
  SFneg (SFsub prec emax x y) (SFsub prec emax y x).
Proof.
  destruct x as [sx | sx | | sx mx ex], y as [sy | sy | | sy my ey]; simpl;
    try done; try (by destruct sx, sy); try (by destruct sx); try (by destruct sy).
  rewrite (Z.min_comm ey ex).
  match goal with |- SFneg (binary_normalize _ _ ?a _ _) (binary_normalize _ _ ?b _ _) =>
    replace b with (- a)%Z by lia end.
  apply binary_normalize_opp.
Qed.

Lemma SFneg_inv (a b : spec_float) :
  SFneg a b ->
  match a with
  | S754_zero _ => exists s, b = S754_zero s
  | _ => b = SFopp a
  end.
Proof.
  unfold SFneg, SFsame. destruct a as [s | s | | s m e]; simpl.
  - destruct b; try done. by eauto.
  - by intros <-.
  - by intros <-.
  - by intros <-.
Qed.

Lemma SFsub_neg (x x' y y' : spec_float) :
  SFneg x x' -> SFneg y y' ->
  SFneg (SFsub prec emax x y) (SFsub prec emax x' y').
Proof.
  intros Hx%SFneg_inv Hy%SFneg_inv.
  destruct x as [sx | sx | | sx mx ex]; [destruct Hx as [sx' ->] | subst x'..];
    (destruct y as [sy | sy | | sy my ey]; [destruct Hy as [sy' ->] | subst y'..]);
    simpl; try done;
    try (by destruct sx, sy); try (by destruct sx, sx', sy, sy');
    try (by destruct sx, sx'); try (by destruct sy, sy').
  match goal with |- SFneg (binary_normalize _ _ ?a _ _) (binary_normalize _ _ ?b _ _) =>
    replace b with (- a)%Z by (destruct sx, sy; simpl; lia) end.
  apply binary_normalize_opp.
Qed.

Lemma SFmul_neg_r (x y y' : spec_float) :
  SFneg y y' -> SFneg (SFmul prec emax x y) (SFmul prec emax x y').
Proof.
  intros Hy%SFneg_inv.
  destruct x as [sx | sx | | sx mx ex];
    (destruct y as [sy | sy | | sy my ey]; [destruct Hy as [sy' ->] | subst y'..]);
    simpl; try done; try (by destruct sx, sy).
  unfold SFneg, binary_round_aux.
  destruct (shr_fexp _ _ _ _ _) as [mrs' e'].
  destruct (shr_fexp _ _ _ _ _) as [mrs'' e''].
  destruct (shr_m mrs''); simpl; try done.
  - by destruct sx, sy; destruct (_ <=? _)%Z.
Qed.

Lemma SFsame_refl (a : spec_float) : SFsame a a.
Proof. by destruct a. Qed.

Lemma SFdiv_neg (n n' d d' : spec_float) :
  SFneg n n' -> SFneg d d' -> (forall s, d <> S754_zero s) ->
  SFsame (SFdiv prec emax n d) (SFdiv prec emax n' d').
Proof.
  intros Hn%SFneg_inv Hd%SFneg_inv Hnz.
  destruct d as [sd | sd | | sd md ed]; [by destruct (Hnz sd) | subst d'..];
    (destruct n as [sn | sn | | sn mn en]; [destruct Hn as [sn' ->] | subst n'..]);
    simpl; try done; try (by destruct sn, sd).
  destruct (SFdiv_core_binary _ _ _ _ _ _) as [[mz ez] lz].
  destruct sn, sd; apply SFsame_refl.
Qed.

Lemma SFcompare_same (a a' b b' : spec_float) :
  SFsame a a' -> SFsame b b' -> SFcompare a b = SFcompare a' b'.
Proof.
  assert (forall x x', SFsame x x' ->
    (exists s s', x = S754_zero s /\ x' = S754_zero s') \/ x = x') as Hinv.
  { intros x x'. unfold SFsame. destruct x, x'; try done; eauto. }
  intros [(sa & sa' & -> & ->) | <-]%Hinv [(sb & sb' & -> & ->) | <-]%Hinv;
    try done; by destruct a.
Qed.

(** The exact test, with the two segments swapped. *)
Lemma denom_swap (p1 p2 p3 p4 : Position) :
  SFneg (Prim2SF (denom p1 p2 p3 p4)) (Prim2SF (denom p3 p4 p1 p2)).
Proof.
  unfold denom.
  rewrite (mul_comm (c1 p2 - c1 p1)), (mul_comm (c0 p2 - c0 p1)).
  rewrite !(sub_spec (_ * _)). apply SFsub_swap.
Qed.

Lemma nume_swap (a b c d e f : float) :
  SFneg (Prim2SF (a * (b - c) - d * (e - f))) (Prim2SF (a * (c - b) - d * (f - e))).
Proof.
  rewrite !(sub_spec (_ * _)), !mul_spec.
  apply SFsub_neg; apply SFmul_neg_r; rewrite !sub_spec; apply SFsub_swap.
Qed.

Lemma eqb_zero_neg (x x' : float) :
  SFneg (Prim2SF x) (Prim2SF x') -> (x' =? 0) = (x =? 0).
Proof.
  rewrite !FloatAxioms.eqb_spec, Prim2SF_zero. unfold SFeqb.
  intros H%SFneg_inv. destruct (Prim2SF x) as [s | s | | s m e].
  - by destruct H as [s' ->].
  - rewrite H. by destruct s.
  - by rewrite H.
  - rewrite H. by destruct s.
Qed.

Lemma in_unit_interval_same (u u' : float) :
  SFsame (Prim2SF u) (Prim2SF u') -> in_unit_interval u' = in_unit_interval u.
Proof.
  intros H. unfold in_unit_interval. rewrite !leb_spec. unfold SFleb.
  rewrite (SFcompare_same _ _ _ _ (SFsame_refl (Prim2SF 0)) H).
  by rewrite (SFcompare_same _ _ _ _ H (SFsame_refl (Prim2SF 1))).
Qed.

Lemma uA_swap (p1 p2 p3 p4 : Position) :
  (denom p1 p2 p3 p4 =? 0) = false ->
  in_unit_interval (uA p3 p4 p1 p2) = in_unit_interval (uB p1 p2 p3 p4) /\
  in_unit_interval (uB p3 p4 p1 p2) = in_unit_interval (uA p1 p2 p3 p4).
Proof.
  intros Hd.
  assert (forall s, Prim2SF (denom p1 p2 p3 p4) <> S754_zero s) as Hnz.
  { intros s Hs. rewrite FloatAxioms.eqb_spec, Hs in Hd. by destruct s. }
  split; apply in_unit_interval_same; unfold uA, uB; rewrite !div_spec;
    (apply SFdiv_neg; [| apply denom_swap | done]).
  - unfold numeB, numeA. apply nume_swap.
  - unfold numeB, numeA. apply nume_swap.
Qed.

Lemma intersects_Some_inv (line1 line2 : LineStringFeature) (q : Feature) :
  intersects line1 line2 = Ok (Some q) ->
  exists p1 p2 p3 p4, line1 = [p1; p2] /\ line2 = [p3; p4].
Proof.
  unfold intersects.
  destruct line1 as [| p1 [| p2 [| ? ?]]]; try done.
  destruct line2 as [| p3 [| p4 [| ? ?]]]; try done.
  intros _. by exists p1, p2, p3, p4.
Qed.

Lemma intersects_swap_Some (line1 line2 : LineStringFeature) (q : Feature) :
  intersects line1 line2 = Ok (Some q) ->
  exists q', intersects line2 line1 = Ok (Some q').
Proof.
  intros Hq. destruct (intersects_Some_inv _ _ _ Hq) as (p1 & p2 & p3 & p4 & -> & ->).
  rewrite intersects_two_points in Hq. rewrite intersects_two_points.
  rewrite (eqb_zero_neg _ _ (denom_swap p1 p2 p3 p4)).
  destruct (denom p1 p2 p3 p4 =? 0) eqn:Hd; [done |].
  destruct (uA_swap p1 p2 p3 p4 Hd) as [-> ->]. rewrite andb_comm.
  destruct (_ && _); [by eauto | done].
Qed.

Lemma emitted_length_swap (e1 e2 : Entry) :
  length (emitted e2 e1) = length (emitted e1 e2).
Proof.
  unfold emitted.
  destruct (intersects (lineSegment e1) (lineSegment e2)) as [[q |] | e] eqn:H12.
  - by destruct (intersects_swap_Some _ _ _ H12) as [q' ->].
  - destruct (intersects (lineSegment e2) (lineSegment e1)) as [[q |] | e] eqn:H21;
      try done.
    destruct (intersects_swap_Some _ _ _ H21) as [q' Hq']. congruence.
  - destruct (intersects (lineSegment e2) (lineSegment e1)) as [[q |] | e'] eqn:H21;
      try done.
    destruct (intersects_swap_Some _ _ _ H21) as [q' Hq']. congruence.
Qed.

Lemma overlap_swap (q e : Entry) : overlap e q = overlap q e.
Proof.
  unfold overlap, geb.
  by destruct (minX q <=? maxX e), (minX e <=? maxX q),
    (minY q <=? maxY e), (minY e <=? maxY q).
Qed.

Lemma length_bind {A B : Type} (f : A -> list B) (l : list A) :
  length (l ≫= f) = total (fun x => length (f x)) l.
Proof.
  induction l as [| x l IH]; [done |].
  by rewrite bind_cons, length_app, IH.
Qed.

Lemma total_ext {A : Type} (f g : A -> nat) (l : list A) :
  (forall x, x ∈ l -> f x = g x) -> total f l = total g l.
Proof.
  induction l as [| x l IH]; intros Hfg; [done |]. simpl.
  rewrite (Hfg x) by left. rewrite IH; [done |]. intros; apply Hfg; by right.
Qed.

Lemma total_add {A : Type} (f g : A -> nat) (l : list A) :
  total (fun x => f x + g x)%nat l = (total f l + total g l)%nat.
Proof. induction l as [| x l IH]; simpl; [done |]. rewrite IH. lia. Qed.

Lemma total_exchange {A B : Type} (g : A -> B -> nat) (l1 : list A) (l2 : list B) :
  total (fun a => total (g a) l2) l1 = total (fun b => total (fun a => g a b) l1) l2.
Proof.
  induction l1 as [| a l1 IH]; simpl.
  - induction l2 as [| b l2 IH2]; [done | by simpl].
  - by rewrite IH, <- total_add.
Qed.

Lemma length_filter_bind {A B : Type} (P : A -> Prop) `{!forall x, Decision (P x)}
    (f : A -> list B) (l : list A) :
  length (filter P l ≫= f)
  = total (fun x => if decide (P x) then length (f x) else 0%nat) l.
Proof.
  induction l as [| x l IH]; [done |].
  rewrite filter_cons. cbn [total].
  destruct (decide (P x)); [by rewrite bind_cons, length_app, IH | by rewrite IH].
Qed.
Lemma overlapping_points_swap_length (segments1 segments2 : list Entry) :
  length (overlapping_points segments1 segments2)
  = length (overlapping_points segments2 segments1).
Proof.
  unfold overlapping_points. rewrite !length_bind.
  erewrite total_ext; [| intros e1 _; apply length_filter_bind].
  erewrite (total_ext _ _ segments2); [| intros e2 _; apply length_filter_bind].
  rewrite total_exchange. apply total_ext. intros e2 _. apply total_ext. intros e1 _.
  pose proof (overlap_swap e1 e2) as Ho.
  repeat case_decide; try congruence. apply emitted_length_swap.
Qed.

Lemma bind_Permutation_ext {A B : Type} (f g : A -> list B) (l : list A) :
  (forall x, x ∈ l -> f x ≡ₚ g x) -> l ≫= f ≡ₚ l ≫= g.
Proof.
  induction l as [| x l IH]; intros Hfg; [done |].
  rewrite !bind_cons. apply Permutation_app; [apply Hfg; by left |].
  apply IH. intros; apply Hfg; by right.
Qed.

Lemma bind_sublist_ext {A B : Type} (f g : A -> list B) (l : list A) :
  (forall x, x ∈ l -> f x `sublist_of` g x) -> l ≫= f `sublist_of` l ≫= g.
Proof.
  induction l as [| x l IH]; intros Hfg; [done |].
  rewrite !bind_cons. apply sublist_app; [apply Hfg; by left |].
  apply IH. intros; apply Hfg; by right.
Qed.

Section Filter.
Context {rbush : RBush}.

Lemma pipeline_points_Permutation (segments1 segments2 : list Entry) :
  Forall BoundingBox segments1 -> Forall BoundingBox segments2 ->
  pipeline_points segments1 segments2 ≡ₚ overlapping_points segments1 segments2.
Proof.
  intros Hb1 Hb2. unfold pipeline_points, overlapping_points. rewrite all_load by done.
  apply bind_Permutation_ext. intros e1 He1.
  rewrite search_load; [done | done |]. by eapply Forall_forall in Hb1.
Qed.

Lemma overlapping_points_sublist (segments1 segments2 : list Entry) :
  overlapping_points segments1 segments2
  `sublist_of` (segments1 ≫= fun e1 => segments2 ≫= emitted e1).
Proof.
  apply bind_sublist_ext. intros e1 _. apply bind_sublist, sublist_filter.
Qed.

End Filter.

(** X1: whether two segments give a point does not depend on which of
    them is passed first: [intersects] returns a point for
    [line1], [line2] exactly when it returns one for [line2], [line1]
    (the two points may differ in their last bits, since each is computed
    along the first argument). *)
Theorem intersects_swap (line1 line2 : LineStringFeature) :
  (exists q, intersects line1 line2 = Ok (Some q)) <->
  (exists q, intersects line2 line1 = Ok (Some q)).
Proof. split; intros [q Hq]; by eapply intersects_swap_Some. Qed.

Section Symmetry.
Context {rbush : RBush}.

(** X2: when the boxes of all segments are BoundingBoxes (no bound is
    NaN), exchanging the two inputs of [lineIntersect] gives as many
    points. *)
Theorem lineIntersect_swap (h : heap) (line1 line2 : GeoJSON loc)
    (segments1 segments2 : list Entry) :
  lineTree_load h line1 = Ok segments1 ->
  lineTree_load h line2 = Ok segments2 ->
  Forall BoundingBox segments1 -> Forall BoundingBox segments2 ->
  exists points12 points21,
    lineIntersect line1 line2 false h = (Ok (featureCollection points12), h) /\
    lineIntersect line2 line1 false h = (Ok (featureCollection points21), h) /\
    length points12 = length points21.
Proof.
  intros H1 H2 Hb1 Hb2. eexists _, _.
  split; [by apply (lineIntersect_Ok h line1 line2 false segments1 segments2) |].
  split; [by apply (lineIntersect_Ok h line2 line1 false segments2 segments1) |].
  rewrite !pipeline_points_Permutation by done. apply overlapping_points_swap_length.
Qed.

Lemma emitted_length (e1 e2 : Entry) : (length (emitted e1 e2) <= 1)%nat.
Proof. unfold emitted. destruct (intersects _ _) as [[q |] | e]; simpl; lia. Qed.

Lemma naive_length (segments1 segments2 : list Entry) :
  (length (segments1 ≫= fun e1 => segments2 ≫= emitted e1)
   <= length segments1 * length segments2)%nat.
Proof.
  induction segments1 as [| e1 segments1 IH]; [done |].
  rewrite bind_cons, length_app. simpl.
  assert (length (segments2 ≫= emitted e1) <= length segments2)%nat; [| lia].
  clear. induction segments2 as [| e2 segments2 IH]; [done |].
  rewrite bind_cons, length_app. pose proof (emitted_length e1 e2). simpl. lia.
Qed.

(** X3: when the boxes of all segments are BoundingBoxes (no bound is
    NaN), the tree search only skips pairs: the points of [lineIntersect]
    are those of the double loop over all pairs of segments whose boxes
    overlap, up to order; each of them is a point of the double loop
    over all pairs, as many times at most, and there are no more points
    than pairs of segments. *)
Theorem lineIntersect_submseteq (h : heap) (line1 line2 : GeoJSON loc)
    (segments1 segments2 : list Entry) :
  lineTree_load h line1 = Ok segments1 ->
  lineTree_load h line2 = Ok segments2 ->
  Forall BoundingBox segments1 -> Forall BoundingBox segments2 ->
  exists points naive,
    lineIntersect line1 line2 false h = (Ok (featureCollection points), h) /\
    naiveIntersect h line1 line2 = Ok naive /\
    points ≡ₚ overlapping_points segments1 segments2 /\
    points ⊆+ naive /\
    (length points <= length naive <= length segments1 * length segments2)%nat.
Proof.
  intros H1 H2 Hb1 Hb2. eexists _, _.
  split; [by apply (lineIntersect_Ok h line1 line2 false segments1 segments2) |].
  split; [by apply naiveIntersect_spec |].
  assert (pipeline_points segments1 segments2
          ⊆+ segments1 ≫= fun e1 => segments2 ≫= emitted e1) as Hsub.
  { rewrite pipeline_points_Permutation by done.
    apply sublist_submseteq, overlapping_points_sublist. }
  split; [by apply pipeline_points_Permutation |]. split; [done |].
  split; [by apply submseteq_length | apply naive_length].
Qed.

End Symmetry.

Lemma lineIntersect_swap_witness :
  let line1 := AFeature 1%positive in
  let line2 := AFeature 2%positive in
  exists points12 points21,
    lineIntersect (rbush := scan) line1 line2 false example_heap
      = (Ok (featureCollection points12), example_heap) /\
    lineIntersect (rbush := scan) line2 line1 false example_heap
      = (Ok (featureCollection points21), example_heap) /\
    length points12 = length points21.
Proof.
  intros line1 line2.
  apply (lineIntersect_swap (rbush := scan) example_heap line1 line2
           (match lineTree_load example_heap line1 with Ok s => s | Throw _ => [] end)
           (match lineTree_load example_heap line2 with Ok s => s | Throw _ => [] end)
           eq_refl eq_refl).
  - vm_compute. by repeat constructor.
  - vm_compute. by repeat constructor.
Defined.

Lemma lineIntersect_submseteq_witness :
  let line1 := AFeatureCollection [1%positive; 1%positive] in
  let line2 := AFeature 2%positive in
  exists points naive,
    lineIntersect (rbush := scan) line1 line2 false example_heap
      = (Ok (featureCollection points), example_heap) /\
    naiveIntersect example_heap line1 line2 = Ok naive /\
    points ⊆+ naive /\
    (length points <= length naive <= 4 * 2)%nat.
Proof.
  intros line1 line2.
  destruct (lineIntersect_submseteq (rbush := scan) example_heap line1 line2
              (match lineTree_load example_heap line1 with Ok s => s | Throw _ => [] end)
              (match lineTree_load example_heap line2 with Ok s => s | Throw _ => [] end)
              eq_refl eq_refl)
    as (points & naive & Hrun & Hnaive & _ & Hsub & Hlen).
  { vm_compute. by repeat constructor. }
  { vm_compute. by repeat constructor. }
  exists points, naive. split; [exact Hrun |]. split; [exact Hnaive |].
  split; [exact Hsub | exact Hlen].
Defined.

(** *** Coordinates that are not numbers *)
Lemma nan_sub (x y : float) :
  is_nan x = true \/ is_nan y = true -> is_nan (x - y) = true.
Proof.
  rewrite <- !Prim2SF_nan, sub_spec.
  intros [-> | ->]; [done |]. by destruct (Prim2SF x).
Qed.

Lemma nan_mul (x y : float) :
  is_nan x = true \/ is_nan y = true -> is_nan (x * y) = true.
Proof.
  rewrite <- !Prim2SF_nan, mul_spec.
  intros [-> | ->]; [done |]. by destruct (Prim2SF x).
Qed.

Lemma nan_denom (p1 p2 p3 p4 : Position) :
  has_nan p1 || has_nan p2 || has_nan p3 || has_nan p4 = true ->
  is_nan (denom p1 p2 p3 p4) = true.
Proof.
  unfold has_nan, denom. intros H.
  repeat (apply orb_prop in H as [H | H]).
  all: apply nan_sub.
  all: first [ left; apply nan_mul; first [left; apply nan_sub; auto; done
                                          | right; apply nan_sub; auto; done]
             | right; apply nan_mul; first [left; apply nan_sub; auto; done
                                           | right; apply nan_sub; auto; done] ].
Qed.

(** X4: a segment with a NaN coordinate meets nothing: whenever one of
    the four end points has a coordinate that is NaN, [denom] is NaN,
    both comparisons with it are false and [intersects] returns null. *)
Theorem intersects_nan (p1 p2 p3 p4 : Position) :
  has_nan p1 || has_nan p2 || has_nan p3 || has_nan p4 = true ->
  intersects [p1; p2] [p3; p4] = Ok None.
Proof.
  intros H%nan_denom. apply intersects_zeroish_denom.
  apply Prim2SF_nan in H. by rewrite H.
Qed.

Lemma intersects_nan_witness :
  intersects [position nan 0; position 2 2] [position 0 2; position 2 0] = Ok None /\
  intersects [position 0 0; position 2 2] [position 0 2; position 2 nan] = Ok None.
Proof.
  split.
  - apply (intersects_nan (position nan 0) (position 2 2) (position 0 2) (position 2 0)).
    reflexivity.
  - apply (intersects_nan (position 0 0) (position 2 2) (position 0 2) (position 2 nan)).
    reflexivity.
Defined.

(** *** Segments of the same direction *)
Lemma SFneg_unique (x a b : spec_float) : SFneg x a -> SFneg x b -> SFsame a b.
Proof.
  intros Ha%SFneg_inv Hb%SFneg_inv. destruct x.
  - destruct Ha as [sa ->], Hb as [sb ->]. done.
  - subst. apply SFsame_refl.
  - subst. apply SFsame_refl.
  - subst. apply SFsame_refl.
Qed.

Lemma zeroish_SFsub_same (a b : spec_float) :
  SFsame a b -> zeroish (SFsub prec emax a b).
Proof.
  unfold SFsame. destruct a as [sa | sa | | sa ma ea], b as [sb | sb | | sb mb eb];
    try done; simpl.
  - by destruct sa, sb.
  - intros [= <-]. by destruct sa.
  - intros [= <- <- <-]. by rewrite Z.sub_diag.
Qed.

Lemma zeroish_denom_opposite_direction (p1 p2 p3 p4 : Position) :
  c0 p4 - c0 p3 = c0 p1 - c0 p2 -> c1 p4 - c1 p3 = c1 p1 - c1 p2 ->
  zeroish (Prim2SF (denom p1 p2 p3 p4)).
Proof.
  intros Hx Hy. unfold denom. rewrite Hx, Hy.
  rewrite (mul_comm (c1 p1 - c1 p2)), (sub_spec (_ * _)).
  apply zeroish_SFsub_same.
  apply (SFneg_unique (Prim2SF ((c0 p2 - c0 p1) * (c1 p2 - c1 p1)))).
  - rewrite !mul_spec. apply SFmul_neg_r. rewrite !sub_spec. apply SFsub_swap.
  - rewrite (mul_comm (c0 p2 - c0 p1)), (mul_comm (c0 p1 - c0 p2)), !mul_spec.
    apply SFmul_neg_r. rewrite !sub_spec. apply SFsub_swap.
Qed.

(** X5: a segment never meets itself, nor itself reversed, nor any
    segment whose coordinate differences are the opposite of its own:
    [denom] is then a zero, whatever the rounding, and [intersects]
    returns null although the segments share all their points. *)
Theorem intersects_coincident (p c : Position) :
  intersects [p; c] [p; c] = Ok None /\
  intersects [p; c] [c; p] = Ok None /\
  (forall p3 p4,
     c0 p4 - c0 p3 = c0 p - c0 c -> c1 p4 - c1 p3 = c1 p - c1 c ->
     intersects [p; c] [p3; p4] = Ok None).
Proof.
  split; [| split].
  - by apply intersects_zeroish_denom, zeroish_denom_same_direction.
  - by apply intersects_zeroish_denom, zeroish_denom_opposite_direction.
  - intros p3 p4 Hx Hy.
    by apply intersects_zeroish_denom, zeroish_denom_opposite_direction.
Qed.

(** *** Exceptions and the store *)

Lemma bind_app_Permutation {A B : Type} (f g : A -> list B) (l : list A) :
  l ≫= (fun x => f x ++ g x) ≡ₚ (l ≫= f) ++ (l ≫= g).
Proof.
  induction l as [| x l IH]; [done |].
  rewrite !bind_cons, IH. solve_Permutation.
Qed.

Lemma overlapping_points_app_l (s1 s1' s2 : list Entry) :
  overlapping_points (s1 ++ s1') s2
  = overlapping_points s1 s2 ++ overlapping_points s1' s2.
Proof. unfold overlapping_points. by rewrite bind_app. Qed.

Lemma overlapping_points_app_r (s1 s2 s2' : list Entry) :
  overlapping_points s1 (s2 ++ s2')
  ≡ₚ overlapping_points s1 s2 ++ overlapping_points s1 s2'.
Proof.
  unfold overlapping_points. rewrite <- bind_app_Permutation.
  apply bind_Permutation_ext. intros e1 _. by rewrite filter_app, bind_app.
Qed.

Lemma targets_ok (h h' : heap) (refs : list (loc * string)) :
  (forall r, r ∈ refs -> is_Some (props_id h' r.1) <-> is_Some (props_id h r.1)) ->
  (targets h' refs).2 = (targets h refs).2.
Proof.
  induction refs as [| [l c] refs IH]; intros Hsame; [done |]. simpl.
  pose proof (Hsame (l, c) ltac:(by left)) as Hl. simpl in Hl.
  destruct (props_id h' l) as [id' |], (props_id h l) as [id |].
  - specialize (IH ltac:(intros; apply Hsame; by right)).
    by destruct (targets h' refs), (targets h refs).
  - destruct (proj1 Hl) as [? [=]]. by eexists.
  - destruct (proj2 Hl) as [? [=]]. by eexists.
  - done.
Qed.

Section Robustness.
Context {rbush : RBush}.

(** X6: an exception of a call without debug comes from [lineTree]: it is
    a TypeError or the invalid geometry error, nothing was written, and
    the debug call throws the same before it writes anything. *)
Theorem lineIntersect_Throw_inv (h h' : heap) (line1 line2 : GeoJSON loc)
    (e : Error) :
  lineIntersect line1 line2 false h = (Throw e, h') ->
  h' = h /\
  lineIntersect line1 line2 true h = (Throw e, h) /\
  (e = TypeError \/ e = InvalidGeometryType).
Proof.
  destruct (lineTree_load h line1) as [segments1 | e1] eqn:H1.
  - destruct (lineTree_load h line2) as [segments2 | e2] eqn:H2.
    + by rewrite (lineIntersect_Ok h line1 line2 false segments1 segments2).
    + rewrite !(lineIntersect_Throw2 h line1 line2 _ segments1 e2) by done.
      intros [= <- <-]. split; [done |]. split; [done |].
      by apply (lineTree_load_Throw h line2).
  - rewrite !(lineIntersect_Throw1 h line1 line2 _ e1) by done.
    intros [= <- <-]. split; [done |]. split; [done |].
    by apply (lineTree_load_Throw h line1).
Qed.

(** X7: [lineIntersect] reads the geometry of the inputs' features and,
    in debug mode, whether they hold a properties object, and nothing
    else: in two stores that agree on these for the references of the
    two inputs, whatever the members of the properties objects and the
    other objects, it returns the same value or throws the same. *)
Theorem lineIntersect_reads_geometry (h h' : heap) (line1 line2 : GeoJSON loc)
    (debug : bool) :
  (forall l, l ∈ features_of line1 ++ features_of line2 ->
     geometry <$> h' !! l = geometry <$> h !! l) ->
  (debug = true ->
   forall l, l ∈ features_of line1 ++ features_of line2 ->
     is_Some (props_id h' l) <-> is_Some (props_id h l)) ->
  fst (lineIntersect line1 line2 debug h') = fst (lineIntersect line1 line2 debug h).
Proof.
  intros Hgeom Hprops.
  assert (lineTree_load h' line1 = lineTree_load h line1) as E1.
  { apply lineTree_load_agree. intros l Hl. apply Hgeom, elem_of_app. by left. }
  assert (lineTree_load h' line2 = lineTree_load h line2) as E2.
  { apply lineTree_load_agree. intros l Hl. apply Hgeom, elem_of_app. by right. }
  destruct (lineTree_load h line1) as [segments1 | e1] eqn:H1.
  - destruct (lineTree_load h line2) as [segments2 | e2] eqn:H2.
    + rewrite !(lineIntersect_Ok _ line1 line2 debug segments1 segments2) by done.
      destruct debug; [| done].
      destruct (createPolygonsFromTree (load segments1)); [| done].
      destruct (createPolygonsFromTree (load segments2)); [| done].
      assert ((targets h' (strokes line1 line2)).2 = (targets h (strokes line1 line2)).2)
        as Hok.
      { apply targets_ok. intros [l c] Hr. apply Hprops; [done |].
        unfold strokes in Hr. apply elem_of_app.
        apply elem_of_app in Hr as [Hr | Hr];
          apply list_elem_of_fmap in Hr as (l' & [= -> _] & Hl'); auto. }
      destruct (targets h' _) as [ws' ok'], (targets h _) as [ws ok]. simpl in *.
      by subst.
    + by rewrite !(lineIntersect_Throw2 _ line1 line2 debug segments1 e2).
  - by rewrite !(lineIntersect_Throw1 _ line1 line2 debug e1).
Qed.

End Robustness.

Lemma lineIntersect_Throw_inv_witness :
  let square := [position 0 0; position 1 0; position 1 1; position 0 0] in
  let h : heap :=
    {[1%positive := {| geometry := LineString [position 0 0; position 2 2];
                       properties := Null |};
      2%positive := {| geometry := Polygon [square]; properties := Own ∅ |}]} in
  lineIntersect (rbush := scan) (AFeature 1%positive) (AFeature 2%positive) false h
    = (Throw InvalidGeometryType, h) /\
  lineIntersect (rbush := scan) (AFeature 1%positive) (AFeature 2%positive) true h
    = (Throw InvalidGeometryType, h).
Proof.
  intros square h. split; [reflexivity |].
  exact (proj1 (proj2 (lineIntersect_Throw_inv (rbush := scan) h h
                         (AFeature 1%positive) (AFeature 2%positive)
                         InvalidGeometryType eq_refl))).
Defined.

(** The two lines of [example_heap] with one properties object for both
    and another object beside them: the debug call returns the same. *)
Lemma lineIntersect_reads_geometry_witness :
  let h' : heap :=
    {| features :=
         {[1%positive := {| geometry := LineString [position 126 (-11); position 129 (-21);
                                                    position 135 (-31)];
                            properties := Shared 7%positive |};
           2%positive := {| geometry := LineString [position 123 (-18); position 131 (-14);
                                                    position 137 (-10)];
                            properties := Shared 7%positive |};
           3%positive := {| geometry := Point (position 0 0); properties := Null |}]};
       shared := {[7%positive := {["stroke" := JSString "#0f0"]}]} |} in
  fst (lineIntersect (rbush := scan) (AFeature 1%positive) (AFeature 2%positive) true h')
  = fst (lineIntersect (rbush := scan) (AFeature 1%positive) (AFeature 2%positive) true
           example_heap).
Proof.
  intros h'.
  apply (lineIntersect_reads_geometry (rbush := scan) example_heap h'
           (AFeature 1%positive) (AFeature 2%positive) true).
  - intros l Hl. simpl in Hl.
    apply elem_of_cons in Hl as [-> | Hl]; [reflexivity |].
    apply list_elem_of_singleton in Hl as ->. reflexivity.
  - intros _ l Hl. simpl in Hl.
    apply elem_of_cons in Hl as [-> | Hl]; [split; intros _; by eexists |].
    apply list_elem_of_singleton in Hl as ->. split; intros _; by eexists.
Defined.

(** *** Lines without a segment, collections, and the debug polygons *)

Lemma mapM_all_nil {A B : Type} (g : A -> Result (list B)) (l : list A) :
  (forall a, a ∈ l -> g a = Ok []) ->
  exists ess, mapM g l = Ok ess /\ concat ess = [].
Proof.
  induction l as [| a l IH]; intros Hg; [by exists [] |].
  destruct IH as (ess & Hess & Hnil); [intros; apply Hg; by right |].
  exists ([] :: ess). simpl. rewrite (Hg a) by left. simpl. by rewrite Hess.
Qed.

Lemma lineTree_load_short (h : heap) (line : GeoJSON loc) :
  (forall l, l ∈ features_of line ->
     exists f cs, h !! l = Some f /\ geometry f = LineString cs /\ (length cs < 2)%nat) ->
  lineTree_load h line = Ok [].
Proof.
  intros Hshort. rewrite lineTree_load_spec.
  destruct (mapM_all_nil (fun l => f ← deref h l; feature_entries f) (features_of line))
    as (ess & -> & Hnil); [| simpl; by rewrite Hnil].
  intros l Hl. destruct (Hshort l Hl) as (f & cs & Hf & Hg & Hlen).
  unfold deref. rewrite Hf. simpl. unfold feature_entries. rewrite Hg.
  by destruct cs as [| c [| c' cs]]; [| | simpl in Hlen; lia].
Qed.

Section Composition.
Context {rbush : RBush}.

(** X8: a line without a segment meets nothing and raises nothing of its
    own: when every feature of one input is a LineString of fewer than two
    vertices (an empty FeatureCollection among them), [lineIntersect]
    returns the empty collection in either order if the other input loads,
    and throws the other input's exception if it does not. The segment
    length checks of [intersects] are never reached. *)
Theorem lineIntersect_short_line (h : heap) (line1 line2 : GeoJSON loc) :
  (forall l, l ∈ features_of line1 ->
     exists f cs, h !! l = Some f /\ geometry f = LineString cs /\ (length cs < 2)%nat) ->
  match lineTree_load h line2 with
  | Ok _ =>
      lineIntersect line1 line2 false h = (Ok (featureCollection []), h) /\
      lineIntersect line2 line1 false h = (Ok (featureCollection []), h)
  | Throw e =>
      lineIntersect line1 line2 false h = (Throw e, h) /\
      lineIntersect line2 line1 false h = (Throw e, h)
  end.
Proof.
  intros H1%lineTree_load_short.
  destruct (lineTree_load h line2) as [segments2 | e] eqn:H2.
  - rewrite (lineIntersect_Ok h line1 line2 false [] segments2) by done.
    rewrite (lineIntersect_Ok h line2 line1 false segments2 []) by done.
    by destruct (pipeline_empty segments2) as [-> ->].
  - split; [by apply (lineIntersect_Throw2 h line1 line2 false []) |
            by apply lineIntersect_Throw1].
Qed.


(** X9: when the boxes of all segments are BoundingBoxes (no bound is
    NaN), [lineIntersect] distributes over the features of a collection,
    on either side: the points for the collection of [refs ++ refs'] are
    the points for [refs] together with the points for [refs'], up to
    order. *)
Theorem lineIntersect_collection (h : heap) (refs refs' : list loc)
    (line : GeoJSON loc) (segments segments' others : list Entry) :
  lineTree_load h (AFeatureCollection refs) = Ok segments ->
  lineTree_load h (AFeatureCollection refs') = Ok segments' ->
  lineTree_load h line = Ok others ->
  Forall BoundingBox segments -> Forall BoundingBox segments' ->
  Forall BoundingBox others ->
  exists pa pb pab qa qb qab,
    lineIntersect (AFeatureCollection refs) line false h
      = (Ok (featureCollection pa), h) /\
    lineIntersect (AFeatureCollection refs') line false h
      = (Ok (featureCollection pb), h) /\
    lineIntersect (AFeatureCollection (refs ++ refs')) line false h
      = (Ok (featureCollection pab), h) /\
    pab ≡ₚ pa ++ pb /\
    lineIntersect line (AFeatureCollection refs) false h
      = (Ok (featureCollection qa), h) /\
    lineIntersect line (AFeatureCollection refs') false h
      = (Ok (featureCollection qb), h) /\
    lineIntersect line (AFeatureCollection (refs ++ refs')) false h
      = (Ok (featureCollection qab), h) /\
    qab ≡ₚ qa ++ qb.
Proof.
  intros Ha Hb Hl Hba Hbb Hbl.
  assert (lineTree_load h (AFeatureCollection (refs ++ refs'))
          = Ok (segments ++ segments')) as Hab.
  { by rewrite lineTree_load_app, Ha, Hb. }
  assert (Forall BoundingBox (segments ++ segments')) as Hbab by (by apply Forall_app).
  eexists _, _, _, _, _, _.
  split; [by apply (lineIntersect_Ok h _ _ false segments others) |].
  split; [by apply (lineIntersect_Ok h _ _ false segments' others) |].
  split; [by apply (lineIntersect_Ok h _ _ false (segments ++ segments') others) |].
  split; [by rewrite !pipeline_points_Permutation, overlapping_points_app_l |].
  split; [by apply (lineIntersect_Ok h _ _ false others segments) |].
  split; [by apply (lineIntersect_Ok h _ _ false others segments') |].
  split; [by apply (lineIntersect_Ok h _ _ false others (segments ++ segments')) |].
  by rewrite !pipeline_points_Permutation, overlapping_points_app_r.
Qed.

(** X10: the polygons of debug mode and NaN. [lineTree] takes the bounds
    of a box from the later vertex of its segment whenever a comparison
    with the earlier one fails, so the box of a segment holds a NaN
    exactly when its later vertex does. When no later vertex of a segment
    holds a NaN (the first vertex of a line may), the boxes are
    BoundingBoxes and [createPolygonsFromTree] returns one polygon for each
    segment; when it throws, the exception is the one of [helpers.polygon]
    for a ring that does not close, and the later vertex of some segment
    holds a NaN. *)
Theorem createPolygonsFromTree_boxes (h : heap) (line : GeoJSON loc)
    (segments : list Entry) :
  lineTree_load h line = Ok segments ->
  ((forall e p c, e ∈ segments -> lineSegment e = [p; c] -> has_nan c = false) ->
   Forall BoundingBox segments /\
   exists polygons,
     createPolygonsFromTree (load segments) = Ok polygons /\
     polygons ≡ₚ box_polygon <$> segments /\
     length polygons = length segments) /\
  (forall err,
     createPolygonsFromTree (load segments) = Throw err ->
     err = InvalidRingClosure /\
     exists e p c, e ∈ segments /\ lineSegment e = [p; c] /\ has_nan c = true).
Proof.
  intros Hload.
  assert (forall e, e ∈ segments ->
    exists p c, lineSegment e = [p; c] /\ (has_nan c = false -> BoundingBox e)) as Hbox.
  { intros e He.
    destruct (proj2 (lineTree_load_Ok _ _ _ Hload) e He) as (p & c & k & ->).
    exists p, c. split; [done |]. unfold has_nan.
    intros [Hc0 Hc1]%orb_false_elim. unfold BoundingBox, segment_entry, gtb; simpl.
    assert (forall a b, is_nan b = false ->
      ((if a <? b then a else b) <=? (if b <? a then a else b)) = true) as Hle.
    { intros a b Hb. destruct (is_nan a) eqn:Ha.
      - apply Prim2SF_nan in Ha.
        assert ((a <? b) = false) as -> by (rewrite ltb_spec, Ha; done).
        assert ((b <? a) = false) as ->
          by (rewrite ltb_spec, Ha; by destruct (Prim2SF b)).
        by apply leb_refl.
      - by apply (min_le_max a b). }
    split; by apply Hle. }
  split.
  - intros Hnan.
    assert (Forall BoundingBox segments) as Hboxes.
    { apply Forall_forall. intros e He. destruct (Hbox e He) as (p & c & Hs & Hb).
      apply Hb. by eapply Hnan. }
    split; [done |]. exists (box_polygon <$> all (load segments)).
    split; [by apply createPolygonsFromTree_Ok |].
    split; [by rewrite all_load | by rewrite length_fmap, all_load].
  - intros err Hthrow. unfold createPolygonsFromTree in Hthrow.
    apply mapM_Result_Throw in Hthrow as (e & He%all_stored & Hthrow).
    split; [by eapply bboxPolygon_Throw |].
    destruct (Hbox e He) as (p & c & Hs & Hb). exists e, p, c.
    split; [done |]. split; [done |].
    destruct (has_nan c); [done |].
    rewrite bboxPolygon_BoundingBox in Hthrow by auto. done.
Qed.

(** X11: no point of [lineIntersect] comes from a segment with a NaN
    coordinate: every item of the output is a fresh point that
    [intersects] returned for a segment of the first input and a segment
    of the second whose four end points are numbers. *)
Theorem lineIntersect_no_nan (h : heap) (line1 line2 : GeoJSON loc)
    (segments1 segments2 : list Entry) :
  lineTree_load h line1 = Ok segments1 ->
  lineTree_load h line2 = Ok segments2 ->
  exists points,
    lineIntersect line1 line2 false h = (Ok (featureCollection points), h) /\
    forall item, item ∈ points ->
      exists p1 p2 p3 p4 q,
        [p1; p2] ∈ lineSegment <$> segments1 /\
        [p3; p4] ∈ lineSegment <$> segments2 /\
        intersects [p1; p2] [p3; p4] = Ok (Some q) /\ item = Fresh q /\
        has_nan p1 = false /\ has_nan p2 = false /\
        has_nan p3 = false /\ has_nan p4 = false.
Proof.
  intros H1 H2. eexists.
  split; [by apply (lineIntersect_Ok h line1 line2 false segments1 segments2) |].
  intros item (e1 & e2 & q & He1 & He2 & Hq & ->)%pipeline_points_stored.
  destruct (proj2 (lineTree_load_Ok _ _ _ H1) e1 He1) as (p1 & p2 & k1 & E1).
  destruct (proj2 (lineTree_load_Ok _ _ _ H2) e2 He2) as (p3 & p4 & k2 & E2).
  exists p1, p2, p3, p4, q.
  split; [apply list_elem_of_fmap; exists e1; by subst |].
  split; [apply list_elem_of_fmap; exists e2; by subst |].
  assert (intersects [p1; p2] [p3; p4] = Ok (Some q)) as Hq' by (by subst).
  split; [done |]. split; [done |].
  destruct (has_nan p1 || has_nan p2 || has_nan p3 || has_nan p4) eqn:Hnan.
  - apply nan_denom, Prim2SF_nan in Hnan.
    rewrite intersects_zeroish_denom in Hq'; [done | by rewrite Hnan].
  - apply orb_false_elim in Hnan as [Hnan ?].
    apply orb_false_elim in Hnan as [Hnan ?].
    by apply orb_false_elim in Hnan as [? ?].
Qed.
End Composition.


Lemma lineIntersect_short_line_witness :
  let h : heap :=
    {[1%positive := {| geometry := LineString [position 126 (-11)]; properties := Own ∅ |};
      2%positive := {| geometry := LineString [position 123 (-18); position 131 (-14);
                                               position 137 (-10)];
                       properties := Own ∅ |}]} in
  lineIntersect (rbush := scan) (AFeature 1%positive) (AFeature 2%positive) false h
    = (Ok (featureCollection []), h) /\
  lineIntersect (rbush := scan) (AFeature 2%positive) (AFeature 1%positive) false h
    = (Ok (featureCollection []), h).
Proof.
  intros h.
  apply (lineIntersect_short_line (rbush := scan) h
           (AFeature 1%positive) (AFeature 2%positive)).
  intros l Hl. simpl in Hl. apply list_elem_of_singleton in Hl as ->.
  exists {| geometry := LineString [position 126 (-11)]; properties := Own ∅ |},
         [position 126 (-11)].
  split; [reflexivity |]. split; [reflexivity |]. simpl. lia.
Defined.


Lemma lineIntersect_collection_witness :
  let line := AFeature 2%positive in
  exists pa pab,
    lineIntersect (rbush := scan) (AFeatureCollection [1%positive]) line false example_heap
      = (Ok (featureCollection pa), example_heap) /\
    lineIntersect (rbush := scan) (AFeatureCollection [1%positive; 1%positive]) line false
        example_heap
      = (Ok (featureCollection pab), example_heap) /\
    pab ≡ₚ pa ++ pa.
Proof.
  intros line.
  pose (segments :=
          match lineTree_load example_heap (AFeatureCollection [1%positive]) with
          | Ok s => s
          | Throw _ => []
          end).
  pose (others :=
          match lineTree_load example_heap line with Ok s => s | Throw _ => [] end).
  destruct (lineIntersect_collection (rbush := scan) example_heap
              [1%positive] [1%positive] line segments segments others
              eq_refl eq_refl eq_refl)
    as (pa & pb & pab & _ & _ & _ & Ha & Hb & Hab & Hperm & _).
  { vm_compute. by repeat constructor. }
  { vm_compute. by repeat constructor. }
  { vm_compute. by repeat constructor. }
  exists pa, pab. split; [exact Ha |]. split; [exact Hab |].
  rewrite Hb in Ha. injection Ha as ->. exact Hperm.
Defined.

(** A NaN in the first vertex of a line only: two boxes, two polygons. *)
Lemma createPolygonsFromTree_boxes_witness :
  let h : heap :=
    {[1%positive := {| geometry := LineString [position nan 0; position 2 2;
                                               position 4 0];
                       properties := Own ∅ |}]} in
  let segments := [segment_entry (position nan 0) (position 2 2) 1;
                   segment_entry (position 2 2) (position 4 0) 2] in
  Forall BoundingBox segments /\
  exists polygons,
    createPolygonsFromTree (rbush := scan) (load segments) = Ok polygons /\
    length polygons = 2%nat.
Proof.
  intros h segments.
  destruct (proj1 (createPolygonsFromTree_boxes (rbush := scan) h
                     (AFeature 1%positive) segments eq_refl))
    as (Hboxes & polygons & Hp & _ & Hlen).
  { intros e p c He Hs. unfold segments in He.
    apply elem_of_cons in He as [-> | He]; [by injection Hs as <- <- |].
    apply list_elem_of_singleton in He as ->. by injection Hs as <- <-. }
  split; [exact Hboxes |]. exists polygons. split; [exact Hp | exact Hlen].
Defined.

Lemma lineIntersect_no_nan_witness :
  let h : heap :=
    {[1%positive := {| geometry := LineString [position 0 0; position 2 2;
                                               position nan 0];
                       properties := Own ∅ |};
      2%positive := {| geometry := LineString [position 0 2; position 2 0];
                       properties := Own ∅ |}]} in
  exists points,
    lineIntersect (rbush := scan) (AFeature 1%positive) (AFeature 2%positive) false h
      = (Ok (featureCollection points), h) /\
    (length points <= 1)%nat.
Proof.
  intros h.
  destruct (lineIntersect_no_nan (rbush := scan) h
              (AFeature 1%positive) (AFeature 2%positive)
              (match lineTree_load h (AFeature 1%positive) with Ok s => s | Throw _ => [] end)
              (match lineTree_load h (AFeature 2%positive) with Ok s => s | Throw _ => [] end)
              eq_refl eq_refl)
    as (points & Hrun & _).
  exists points. split; [exact Hrun |].
  vm_compute in Hrun. injection Hrun as <-. simpl. lia.
Defined.
